(** * Tweet_Forge: the posting-and-retry controller of [src/twitter_agent.py]

    A shallow embedding of [TwitterAgent.__init__], [_validate_credentials],
    [_load_tweets], [post_tweet], [generate_ai_tweet], [post_ai_tweet] and
    [run], and of the main program, with the external world (the random
    module, the two Twitter clients, the OpenAI client, the tweets file, the
    environment) supplied as oracles, and the externally visible calls
    ([time.sleep], [create_tweet], [update_status]) collected in a trace.
    Floats are doubles, rounded to nearest. *)

From Stdlib Require Import Ascii String QArith Lqa Qround Qabs.
From stdpp Require Import base list strings gmap sets fin_sets.

Local Open Scope string_scope.
Local Open Scope list_scope.
Local Open Scope nat_scope.

(** ** Python values *)

(** The exception classes that occur.  All of them derive from [Exception];
    only [TooManyRequests] is told apart by an [except] clause. *)
Inductive exn : Type :=
| TooManyRequests (msg : string)    (* tweepy.errors.TooManyRequests *)
| Unauthorized (msg : string)       (* tweepy.errors.Unauthorized *)
| OtherException (msg : string)     (* any other failure of a client *)
| IndexError (msg : string)
| KeyError (msg : string)
| AttributeError (msg : string)
| UnboundLocalError (msg : string)
| FileNotFoundError (msg : string)
| OSError (msg : string)            (* any other failure of [open] or of a read *)
| UnicodeDecodeError (msg : string).

(** [str(e)] *)
Definition str_exn (ex : exn) : string :=
  match ex with
  | TooManyRequests m | Unauthorized m | OtherException m | IndexError m
  | KeyError m | AttributeError m | UnboundLocalError m
  | FileNotFoundError m | OSError m | UnicodeDecodeError m => m
  end.

(** [isinstance(e, tweepy.errors.TooManyRequests)] *)
Definition is_rate_limit (ex : exn) : bool :=
  match ex with TooManyRequests _ => true | _ => false end.

(** The result of a call: a value, or a raised exception. *)
Inductive res (A : Type) : Type :=
| Ok (a : A)
| Raise (ex : exn).
Arguments Ok {A} a.
Arguments Raise {A} ex.

(** A Python [str] is modelled as a string whose characters each stand for
    one code point (below 256); [len] counts them. *)
Module Str.

(** [c.isspace()] for a code point below 256. *)
Definition is_space (c : ascii) : bool :=
  let n := nat_of_ascii c in
  (((9 <=? n) && (n <=? 13)) || ((28 <=? n) && (n <=? 32))
   || (n =? 133) || (n =? 160))%nat.

Fixpoint lstrip (s : string) : string :=
  match s with
  | String c s' => if is_space c then lstrip s' else s
  | EmptyString => EmptyString
  end.

(** [rstrip] drops the trailing run of spaces: a character is kept when
    something that is kept follows it, or when it is no space. *)
Fixpoint rstrip (s : string) : string :=
  match s with
  | String c s' =>
      match rstrip s' with
      | EmptyString => if is_space c then EmptyString else String c EmptyString
      | r => String c r
      end
  | EmptyString => EmptyString
  end.

(** [s.strip()] *)
Definition strip (s : string) : string := rstrip (lstrip s).

(** [len(s)] *)
Definition len (s : string) : nat := String.length s.

(** [s[:n]] *)
Fixpoint take (n : nat) (s : string) : string :=
  match n, s with
  | S n', String c s' => String c (take n' s')
  | _, _ => EmptyString
  end.

(** truth value of a string: [bool(s)] *)
Definition truthy (s : string) : bool :=
  match s with EmptyString => false | _ => true end.

(** [needle in hay] *)
Fixpoint contains (needle hay : string) : bool :=
  String.prefix needle hay ||
  match hay with
  | String _ hay' => contains needle hay'
  | EmptyString => false
  end.

(** A string of [n] copies of [c], to build long inputs. *)
Fixpoint replicate (n : nat) (c : ascii) : string :=
  match n with
  | O => EmptyString
  | S n' => String c (replicate n' c)
  end.

End Str.

(** ** Python floats *)

Module Float.

(** [2^e] for an integer [e]. *)
Definition pow2 (e : Z) : Q :=
  if (e <? 0)%Z then 1 # Z.to_pos (2 ^ (- e)) else inject_Z (2 ^ e).

(** The exponent of a positive rational [x]: the [e] with
    [2^e <= x < 2^(e+1)].  The difference of the binary logarithms of
    numerator and denominator is that exponent or the next integer. *)
Definition exponent (x : Q) : Z :=
  let e0 := (Z.log2 (Qnum x) - Z.log2 (Zpos (Qden x)))%Z in
  if Qle_bool (pow2 e0) x then e0 else (e0 - 1)%Z.

(** Rounding to the nearest integer, ties to the even one. *)
Definition rne (m : Q) : Z :=
  let f := Qfloor m in
  match (m - inject_Z f ?= 1 # 2)%Q with
  | Lt => f
  | Gt => (f + 1)%Z
  | Eq => if Z.even f then f else (f + 1)%Z
  end.

(** The double nearest to the real [x] (ties to even): 53 bits of
    mantissa, the grid of the subnormal numbers below [2^-1022].  The result
    is in lowest terms.  (No overflow: the reals of this program are small.) *)
Definition round (x : Q) : Q :=
  if Qeq_bool x 0 then 0%Q
  else
    let a := Qabs x in
    let ulp := pow2 (Z.max (exponent a) (-1022) - 52) in
    let y := (inject_Z (rne (a / ulp)) * ulp)%Q in
    Qred (if Qle_bool 0 x then y else - y).

(** [float(n)] for an integer [n] *)
Definition of_int (n : Z) : Q := round (inject_Z n).

(** [x + y] and [x * y] on floats *)
Definition add (x y : Q) : Q := round (x + y).
Definition mul (x y : Q) : Q := round (x * y).

End Float.

(** ** The external world *)

(** What [self.api.create_tweet(text=tweet)] returned. *)
Inductive response : Type :=
| RespData (id : string)   (* truthy, has [data], and [data['id']] is [id] *)
| RespBadData              (* truthy, has [data], but [data['id']] raises *)
| RespNoData.              (* falsy, or without an attribute [data] *)

(** What [self.api_v1.update_status(tweet)] returned: [status.id], if any. *)
Inductive status : Type :=
| Status (id : option string).

(** What [chat.completions.create] returned: [message.content] of each of
    [response.choices], [None] where the content is [None]. *)
Inductive completion : Type :=
| Completion (choices : list (option string)).

(** The oracles.  [post_tweet] draws and calls at most once per retry
    round, so they are indexed by the loop variable [retry];
    [post_ai_tweet] and [generate_ai_tweet] have one round, round [0]. *)
Record env : Type := {
  choice : nat → nat;                       (* the draw of random.choice *)
  random : nat → Q;                         (* the draw of random.random() *)
  create_tweet : nat → string → res response;
  update_status : nat → string → res status;
  chat_completion : option string → res completion
}.

(** The calls the world sees. *)
Inductive event : Type :=
| Sleep (seconds : Q)            (* time.sleep(backoff_time) *)
| CreateTweet (text : string)    (* self.api.create_tweet(text=tweet) *)
| UpdateStatus (text : string).  (* self.api_v1.update_status(tweet) *)

(** A trace lists the calls in order, each with the round it was made in. *)
Abbreviation trace := (list (nat * event)).

(** [random.choice(seq)]: raises [IndexError] on an empty sequence, and
    returns [seq[i]] for a drawn index [i < len(seq)] otherwise. *)
Definition random_choice (seq : list string) (draw : nat) : res string :=
  match seq with
  | [] => Raise (IndexError "Cannot choose from an empty sequence")
  | x :: _ => Ok (nth (draw `mod` length seq) seq x)
  end.

(** ** The agent *)

Inductive OpenAI : Type :=
| OpenAIClient (api_key : string).

(** The fields of [self] that the modelled methods read. *)
Record TwitterAgent : Type := {
  openai_api_key : option string;
  ai_client : option OpenAI;
  tweets : list string
}.

(** The tweets file as [_load_tweets] finds it: [open] raises (there is no
    such file, or it may not be read), or the file opens and reading or
    decoding it raises before its end, or it is read to its end and decodes to
    [text]. *)
Inductive file_state : Type :=
| OpenRaises (ex : exn)
| ReadRaises (ex : exn)
| Opens (text : string).

Definition LF : ascii := ascii_of_nat 10.
Definition CR : ascii := ascii_of_nat 13.
Definition newline : string := String LF EmptyString.

(** The lines that iterating over a file opened in text mode yields.  With
    the default [newline=None] a line feed, a carriage return, and a carriage
    return followed by a line feed each end a line, and each is handed over
    as one line feed; no other character ends a line.  [after_cr] says that
    the character before was a carriage return.  The last line has no line
    feed when the text does not end with a line break. *)
Fixpoint lines_from (after_cr : bool) (text : string) : list string :=
  match text with
  | EmptyString => []
  | String c text' =>
      if Ascii.eqb c LF then
        if after_cr then lines_from false text'
        else newline :: lines_from false text'
      else if Ascii.eqb c CR then newline :: lines_from true text'
      else match lines_from false text' with
           | [] => [String c EmptyString]
           | line :: lines => String c line :: lines
           end
  end.

(** [for line in f] *)
Definition file_lines (text : string) : list string := lines_from false text.

(** [_load_tweets]: an exception of [open] or of a read leaves the method
    as it is; the clause for [FileNotFoundError] logs it and raises it again
    (lines 133-135). *)
Definition _load_tweets (file : file_state) : res (list string) :=
  match file with
  | OpenRaises ex => Raise ex
  | ReadRaises ex => Raise ex
  | Opens text =>
      Ok (Str.strip
            <$> filter (λ line, Is_true (Str.truthy (Str.strip line))) (file_lines text))
  end.

(** [_validate_ai_credentials] *)
Definition _validate_ai_credentials (self : TwitterAgent) : bool :=
  match openai_api_key self with
  | Some key => Str.truthy key
  | None => false
  end.

(** ** [post_tweet] *)

Definition max_retries : nat := 5.
Definition initial_backoff : Z := 60.

(** The local variables of [post_tweet] that live across statements.
    [e] is the target of the [except ... as e] clauses; it is [None] while
    the name is unbound. *)
Record locals : Type := {
  tweet : string;
  used_tweets : gset string;
  methods_tried : list string;
  e : option exn
}.

Definition set_methods_tried (ms : list string) (st : locals) : locals :=
  {| tweet := tweet st; used_tweets := used_tweets st;
     methods_tried := ms; e := e st |}.

Definition set_e (v : option exn) (st : locals) : locals :=
  {| tweet := tweet st; used_tweets := used_tweets st;
     methods_tried := methods_tried st; e := v |}.

(** [except ... as e: logger.warning(...)]: the clause binds [e], logs, and
    unbinds [e] again when it is left, as every such clause of Python 3. *)
Definition except_as (ex : exn) (st : locals) : locals :=
  set_e None (set_e (Some ex) st).

(** How a call ended.  Each normal return yields [None] in the source; the
    constructors tell the return statements apart. *)
Inductive outcome : Type :=
| Posted (method id text : string)   (* [return] after a successful post *)
| NoTweets                           (* [return] of the empty-corpus guard *)
| Failed (methods : list string)     (* the end of the function: failure logged *)
| Raised (ex : exn).                 (* an exception leaves the function *)

(** How one pass through the body of the [for] loop ended. *)
Inductive control : Type :=
| Continue (st : locals)   (* [continue], or the end of the body *)
| Break (st : locals)      (* [break] *)
| Exit (o : outcome).      (* [return], or an exception that nothing catches *)

Definition method1_name : string := "API v2 (OAuth 1.0a)".
Definition method2_name : string := "API v1.1 (OAuth 1.0a)".

(** What reading the local [e] raises while the name is unbound. *)
Definition unbound_e : exn :=
  UnboundLocalError
    "cannot access local variable 'e' where it is not associated with a value".

(** Lines 204-206: [if "TooManyRequests" not in str(e): break]. *)
Definition after_methods (st : locals) : control :=
  match e st with
  | None => Exit (Raised unbound_e)
  | Some ex =>
      if Str.contains "TooManyRequests" (str_exn ex) then Continue st else Break st
  end.

(** Lines 191-206: method 2 and what follows it. *)
Definition method2 (E : env) (retry : nat) (st : locals) : control * list event :=
  let st := set_methods_tried (methods_tried st ++ [method2_name]) st in
  let evs := [UpdateStatus (tweet st)] in
  match update_status E retry (tweet st) with
  | Ok (Status (Some id)) => (Exit (Posted method2_name id (tweet st)), evs)
  | Ok (Status None) =>
      (after_methods (except_as (AttributeError "id") st), evs)
  | Raise ex =>
      if is_rate_limit ex then (Continue (except_as ex st), evs)
      else (after_methods (except_as ex st), evs)
  end.

(** Lines 172-206: one pass through the two methods with the current tweet. *)
Definition deliver (E : env) (retry : nat) (st : locals) : control * list event :=
  let st := set_methods_tried [method1_name] st in
  let ev := CreateTweet (tweet st) in
  let then_method2 (st : locals) :=
    let '(c, evs) := method2 E retry st in (c, ev :: evs) in
  match create_tweet E retry (tweet st) with
  | Ok (RespData id) => (Exit (Posted method1_name id (tweet st)), [ev])
  | Ok RespNoData => then_method2 st
  | Ok RespBadData => then_method2 (except_as (KeyError "id") st)
  | Raise ex =>
      if is_rate_limit ex then (Continue (except_as ex st), [ev])
      else then_method2 (except_as ex st)
  end.

(** Lines 161-169: the tweet of a retry round. *)
Definition select_retry (corpus : list string) (draw : nat) (st : locals)
  : res locals :=
  let available_tweets := filter (λ t, t ∉ used_tweets st) corpus in
  let '(used, available_tweets) :=
    match available_tweets with
    | [] => (∅, corpus)
    | _ => (used_tweets st, available_tweets)
    end in
  match random_choice available_tweets draw with
  | Ok t =>
      Ok {| tweet := t; used_tweets := {[t]} ∪ used;
            methods_tried := methods_tried st; e := e st |}
  | Raise ex => Raise ex
  end.

(** [random.uniform(a, b)] for integers [a] and [b], in round [retry]:
    [a + (b - a) * self.random()], in floats. *)
Definition uniform (E : env) (retry : nat) (a b : Z) : Q :=
  Float.add (Float.of_int a) (Float.mul (Float.of_int (b - a)) (random E retry)).

(** Line 157: an integer plus a float, in floats. *)
Definition backoff_time (E : env) (retry : nat) : Q :=
  Float.add (Float.of_int (initial_backoff * 2 ^ (Z.of_nat retry - 1)))
    (uniform E retry 0 10).

(** Lines 155-206: the body of the loop for one value of [retry]. *)
Definition body (E : env) (corpus : list string) (retry : nat) (st : locals)
  : control * list event :=
  if decide (0 < retry) then
    match select_retry corpus (choice E retry) st with
    | Ok st' =>
        let '(c, evs) := deliver E retry st' in
        (c, Sleep (backoff_time E retry) :: evs)
    | Raise ex => (Exit (Raised ex), [Sleep (backoff_time E retry)])
    end
  else deliver E retry st.

Definition tag (retry : nat) (evs : list event) : trace := pair retry <$> evs.

(** Lines 154-216: the loop over the values [rs] of [retry] that are left,
    and the report after it. *)
Fixpoint for_retry (E : env) (corpus : list string) (rs : list nat) (st : locals)
  : outcome * trace :=
  match rs with
  | [] => (Failed (methods_tried st), [])
  | retry :: rs' =>
      match body E corpus retry st with
      | (Continue st', evs) =>
          let '(o, tr) := for_retry E corpus rs' st' in (o, tag retry evs ++ tr)
      | (Break st', evs) => (Failed (methods_tried st'), tag retry evs)
      | (Exit o, evs) => (o, tag retry evs)
      end
  end.

(** The locals of round [0] for a first tweet [t] (lines 144-146). *)
Definition first_locals (t : string) : locals :=
  {| tweet := t; used_tweets := {[t]} ∪ ∅; methods_tried := []; e := None |}.

Definition post_tweet (E : env) (self : TwitterAgent) : outcome * trace :=
  match tweets self with
  | [] => (NoTweets, [])
  | _ =>
      match random_choice (tweets self) (choice E 0) with
      | Ok t =>
          for_retry E (tweets self) (seq 0 (max_retries + 1)) (first_locals t)
      | Raise ex => (Raised ex, [])
      end
  end.

(** ** [generate_ai_tweet] and [post_ai_tweet] *)

(** Lines 262-264 *)
Definition cap (tweet_text : string) : string :=
  if decide (280 < Str.len tweet_text) then String.append (Str.take 277 tweet_text) "..."
  else tweet_text.

(** Lines 249-266: the body of the [try]. *)
Definition generate_try (E : env) (topic : option string) : res string :=
  match chat_completion E topic with
  | Ok (Completion (Some content :: _)) => Ok (cap (Str.strip content))
  | Ok (Completion (None :: _)) => Raise (AttributeError "strip")
  | Ok (Completion []) => Raise (IndexError "list index out of range")
  | Raise ex => Raise ex
  end.

Definition generate_ai_tweet (E : env) (self : TwitterAgent) (topic : option string)
  : res string :=
  if negb (_validate_ai_credentials self) || negb (bool_decide (is_Some (ai_client self)))
  then random_choice (tweets self) (choice E 0)
  else
    match generate_try E topic with
    | Ok tweet_text => Ok tweet_text
    | Raise _ => random_choice (tweets self) (choice E 0)
    end.

Definition post_ai_tweet (E : env) (self : TwitterAgent) (topic : option string)
  : outcome * trace :=
  match generate_ai_tweet E self topic with
  | Raise ex => (Raised ex, [])
  | Ok t =>
      let ev1 := (0, CreateTweet t) in
      let ev2 := (0, UpdateStatus t) in
      match create_tweet E 0 t with
      | Ok (RespData id) => (Posted method1_name id t, [ev1])
      | _ =>
          match update_status E 0 t with
          | Ok (Status (Some id)) => (Posted method2_name id t, [ev1; ev2])
          | _ => (Failed [method1_name; method2_name], [ev1; ev2])
          end
      end
  end.

(** ** Reading a run round by round *)

(** The locals with which the loop over [rs], started in [st], enters the
    round [r], if it gets there. *)
Fixpoint entry_state (E : env) (corpus : list string) (rs : list nat)
    (st : locals) (r : nat) : option locals :=
  match rs with
  | [] => None
  | r0 :: rs' =>
      if decide (r0 = r) then Some st
      else match (body E corpus r0 st).1 with
           | Continue st' => entry_state E corpus rs' st' r
           | _ => None
           end
  end.

(** The locals at line 172 of round [retry]: after the selection of a retry
    round, or as they were in round [0]. *)
Definition selected (E : env) (corpus : list string) (retry : nat) (st : locals)
  : res locals :=
  if decide (0 < retry) then select_retry corpus (choice E retry) st else Ok st.

(** The sleep with which round [retry] starts. *)
Definition backoff (E : env) (retry : nat) : list event :=
  if decide (0 < retry) then [Sleep (backoff_time E retry)] else [].

(** The locals with which a run of [post_tweet] enters round [r]. *)
Definition round_entry (E : env) (self : TwitterAgent) (r : nat) : option locals :=
  match random_choice (tweets self) (choice E 0) with
  | Ok t => entry_state E (tweets self) (seq 0 (max_retries + 1)) (first_locals t) r
  | Raise _ => None
  end.

Definition is_create_tweet (x : nat * event) : bool :=
  match x.2 with CreateTweet _ => true | _ => false end.

(** The number of passes through the channel loop: each pass calls
    [create_tweet] once, as its first call. *)
Definition deliver_rounds (tr : trace) : nat :=
  length (filter (λ x, Is_true (is_create_tweet x)) tr).

(** The text handed to a channel by an event. *)
Definition posted_text (ev : event) : option string :=
  match ev with
  | CreateTweet t | UpdateStatus t => Some t
  | Sleep _ => None
  end.

(** The number of distinct entries of a corpus. *)
Definition distinct (corpus : list string) : nat :=
  size (list_to_set corpus : gset string).

(** [UsedSet] covers the corpus. *)
Definition covers (used : gset string) (corpus : list string) : Prop :=
  ∀ t, t ∈ corpus → t ∈ used.

(** The state of the used set after the selection of round [r]: it holds
    the tweet of the round, it holds corpus entries only, and it has
    [r mod d + 1] members, for [d] the number of distinct corpus entries. *)
Definition used_inv (corpus : list string) (r : nat) (st : locals) : Prop :=
  tweet st ∈ used_tweets st
  ∧ used_tweets st ⊆ list_to_set corpus
  ∧ size (used_tweets st) = r `mod` distinct corpus + 1.

(** ** Concrete worlds and agents *)

Definition rate_limit_error : exn := TooManyRequests "429 Too Many Requests".
Definition auth_error : exn := Unauthorized "401 Unauthorized".

(** Both channels refuse every post with an authentication error. *)
Definition E_auth : env := {|
  choice := λ _, 0;
  random := λ _, 0%Q;
  create_tweet := λ _ _, Raise auth_error;
  update_status := λ _ _, Raise auth_error;
  chat_completion := λ _, Raise (OtherException "connection error")
|}.

(** Both channels are rate limited in every round; the draws pick the first
    available tweet, except in round 2, where they pick the second. *)
Definition E_rate_limited : env := {|
  choice := λ r, match r with 2 => 1 | _ => 0 end;
  random := λ _, (1 # 2)%Q;
  create_tweet := λ _ _, Raise rate_limit_error;
  update_status := λ _ _, Raise rate_limit_error;
  chat_completion := λ _, Raise (OtherException "connection error")
|}.

(** Both channels are rate limited; every draw of [random.random()] is the
    double nearest to 0.01. *)
Definition E_tenth : env := {|
  choice := λ _, 0;
  random := λ _, (5764607523034235 # 576460752303423488)%Q;
  create_tweet := λ _ _, Raise rate_limit_error;
  update_status := λ _ _, Raise rate_limit_error;
  chat_completion := λ _, Raise (OtherException "connection error")
|}.

(** The rich channel is rate limited, the legacy channel works. *)
Definition E_rich_rate_limited : env := {|
  choice := λ _, 0;
  random := λ _, (1 # 2)%Q;
  create_tweet := λ _ _, Raise rate_limit_error;
  update_status := λ _ _, Ok (Status (Some "1001"));
  chat_completion := λ _, Raise (OtherException "connection error")
|}.

(** The rich channel returns a response without [data], the legacy channel
    works. *)
Definition E_no_data : env := {|
  choice := λ _, 0;
  random := λ _, (1 # 2)%Q;
  create_tweet := λ _ _, Ok RespNoData;
  update_status := λ _ _, Ok (Status (Some "1001"));
  chat_completion := λ _, Raise (OtherException "connection error")
|}.

(** The generative backend answers with 300 characters. *)
Definition E_ai_long : env := {|
  choice := λ _, 0;
  random := λ _, (1 # 2)%Q;
  create_tweet := λ _ _, Ok (RespData "2002");
  update_status := λ _ _, Ok (Status (Some "1001"));
  chat_completion := λ _, Ok (Completion [Some (Str.replicate 300 "x")])
|}.

Definition agent_of (corpus : list string) : TwitterAgent :=
  {| openai_api_key := None; ai_client := None; tweets := corpus |}.

Definition ai_agent_of (corpus : list string) : TwitterAgent :=
  {| openai_api_key := Some "sk-test"; ai_client := Some (OpenAIClient "sk-test");
     tweets := corpus |}.

(** The text of a file with an empty line and a line of three spaces. *)
Definition blank_text : string :=
  String.append newline (String.append "   " newline).

Definition agent_A : TwitterAgent := agent_of ["A"].
Definition agent_AB : TwitterAgent := agent_of ["A"; "B"].
Definition agent_empty : TwitterAgent := agent_of [].
Definition long_tweet : string := Str.replicate 281 "a".
Definition agent_long : TwitterAgent := agent_of [long_tweet].

(** ** Strings, once more *)

Definition first_char (s : string) : option ascii :=
  match s with
  | String c _ => Some c
  | EmptyString => None
  end.

Fixpoint last_char (s : string) : option ascii :=
  match s with
  | EmptyString => None
  | String c EmptyString => Some c
  | String _ s' => last_char s'
  end.

(** Whether a character is there and is a space. *)
Definition space_at (c : option ascii) : bool :=
  match c with
  | Some c => Str.is_space c
  | None => false
  end.

(** Every character of [s] is a space (so is the empty string). *)
Fixpoint blank (s : string) : bool :=
  match s with
  | String c s' => Str.is_space c && blank s'
  | EmptyString => true
  end.

(** A tweet as [_load_tweets] keeps it: not empty, and without a space at
    either end. *)
Definition clean (t : string) : Prop :=
  t ≠ EmptyString ∧ space_at (first_char t) = false ∧ space_at (last_char t) = false.

(** [sep.join(l)] *)
Fixpoint join (sep : string) (l : list string) : string :=
  match l with
  | [] => EmptyString
  | [x] => x
  | x :: l' => String.append x (String.append sep (join sep l'))
  end.

(** Whether a line feed or a carriage return occurs in [s]. *)
Fixpoint has_break (s : string) : bool :=
  match s with
  | String c s' => Ascii.eqb c LF || Ascii.eqb c CR || has_break s'
  | EmptyString => false
  end.

(** [''.join(l)] *)
Definition concat (l : list string) : string := foldr String.append EmptyString l.

(** The corpus that the lines of a tweets file give (line 127). *)
Definition corpus_of (lines : list string) : list string :=
  Str.strip <$> filter (λ line, Is_true (Str.truthy (Str.strip line))) lines.

(** The sum of the sleeps of a trace, in seconds. *)
Fixpoint total_sleep (tr : trace) : Q :=
  match tr with
  | [] => 0
  | (_, Sleep d) :: tr' => d + total_sleep tr'
  | _ :: tr' => total_sleep tr'
  end.

(** ** Start-up: [_validate_credentials] and [__init__] *)

(** The five credentials, as [os.getenv] returned them. *)
Record credentials : Type := {
  api_key : option string;
  api_secret : option string;
  access_token : option string;
  access_token_secret : option string;
  bearer_token : option string
}.

(** [not v] for a value that is [None] or a string. *)
Definition py_not (v : option string) : bool :=
  match v with
  | Some s => negb (Str.truthy s)
  | None => true
  end.

(** Lines 74-84: the list [missing]. *)
Definition missing_credentials (c : credentials) : list string :=
  let missing := [] in
  let missing :=
    if py_not (api_key c) then missing ++ ["TWITTER_API_KEY"] else missing in
  let missing :=
    if py_not (api_secret c) then missing ++ ["TWITTER_API_SECRET"] else missing in
  let missing :=
    if py_not (access_token c) then missing ++ ["TWITTER_ACCESS_TOKEN"] else missing in
  let missing :=
    if py_not (access_token_secret c)
    then missing ++ ["TWITTER_ACCESS_TOKEN_SECRET"] else missing in
  let missing :=
    if py_not (bearer_token c) then missing ++ ["TWITTER_BEARER_TOKEN"] else missing in
  missing.

(** What can leave [__init__]: a [ValueError], or one of the exceptions
    above. *)
Inductive init_exn : Type :=
| ValueError (msg : string)
| InitExn (ex : exn).

Inductive init_res (A : Type) : Type :=
| InitOk (a : A)
| InitRaise (x : init_exn).
Arguments InitOk {A} a.
Arguments InitRaise {A} x.

(** [_validate_credentials] *)
Definition _validate_credentials (c : credentials) : init_res unit :=
  match missing_credentials c with
  | [] => InitOk ()
  | missing =>
      InitRaise (ValueError
        (String.append "Missing Twitter API credentials: " (join ", " missing)))
  end.

(** [load_dotenv()]: the variables of the [.env] file are added to the
    environment; a variable that is set already keeps its value. *)
Definition load_dotenv (dotenv environ : gmap string string) : gmap string string :=
  environ ∪ dotenv.

(** [os.getenv(key, default)] *)
Definition getenv (environ : gmap string string) (key : string) : option string :=
  environ !! key.

(** What [__init__] leaves in [self]. *)
Record agent : Type := {
  creds : credentials;
  tweet_interval : Z;
  tweets_file : file_state;
  base : TwitterAgent
}.

(** What [__init__] calls outside this file; each call returns or raises:
    the builtin [int] on a string, the constructor [OpenAI(api_key=...)], and
    the constructors of the Twitter clients, on the credentials. *)
Record platform : Type := {
  int : string → init_res Z;
  openai_init : string → init_res unit;
  tweepy_init : credentials → init_res unit
}.

(** Lines 52-59: the generative client is built when the key is there and
    not empty. *)
Definition init_ai_client (P : platform) (key : option string)
    : init_res (option OpenAI) :=
  match key with
  | Some k =>
      if Str.truthy k then
        match openai_init P k with
        | InitOk _ => InitOk (Some (OpenAIClient k))
        | InitRaise x => InitRaise x
        end
      else InitOk None
  | None => InitOk None
  end.

(** [_init_twitter_api] builds the handler and the two clients. *)
Definition _init_twitter_api (P : platform) (c : credentials) : init_res unit :=
  tweepy_init P c.

(** [__init__]: [dotenv] is the content of the [.env] file, [environ] the
    environment of the process, [file] the tweets file as it is found. *)
Definition __init__ (P : platform) (dotenv environ : gmap string string)
    (file : file_state) : init_res agent :=
  let environ := load_dotenv dotenv environ in
  let c := {| api_key := getenv environ "TWITTER_API_KEY";
              api_secret := getenv environ "TWITTER_API_SECRET";
              access_token := getenv environ "TWITTER_ACCESS_TOKEN";
              access_token_secret := getenv environ "TWITTER_ACCESS_TOKEN_SECRET";
              bearer_token := getenv environ "TWITTER_BEARER_TOKEN" |} in
  match int P (default "60" (getenv environ "TWEET_INTERVAL_MINUTES")) with
  | InitRaise x => InitRaise x
  | InitOk interval =>
      let key := getenv environ "OPENAI_API_KEY" in
      match init_ai_client P key with
      | InitRaise x => InitRaise x
      | InitOk client =>
          match _validate_credentials c with
          | InitRaise x => InitRaise x
          | InitOk _ =>
              match _init_twitter_api P c with
              | InitRaise x => InitRaise x
              | InitOk _ =>
                  match _load_tweets file with
                  | Raise ex => InitRaise (InitExn ex)
                  | Ok corpus =>
                      InitOk {| creds := c; tweet_interval := interval;
                                tweets_file := file;
                                base := {| openai_api_key := key; ai_client := client;
                                           tweets := corpus |} |}
                  end
              end
          end
      end
  end.

(** ** [run] and its [scheduled_post] *)

(** The attributes that [run] sets: [ai_topics], and [current_topic_index],
    which is read only while [ai_topics] is a non-empty list. *)
Record rotation : Type := {
  ai_topics : option (list string);
  current_topic_index : nat
}.

(** Lines 323-329 *)
Definition run_setup (use_ai : bool) (topics : option (list string)) : rotation :=
  match use_ai, topics with
  | true, Some (t :: ts) => {| ai_topics := Some (t :: ts); current_topic_index := 0 |}
  | _, _ => {| ai_topics := None; current_topic_index := 0 |}
  end.

(** Lines 332-340: one firing of the job, in the world [E]. *)
Definition scheduled_post (use_ai : bool) (E : env) (self : TwitterAgent)
    (rot : rotation) : (outcome * trace) * rotation :=
  if use_ai then
    match ai_topics rot with
    | Some (t :: ts) =>
        let topics := t :: ts in
        match topics !! current_topic_index rot with
        | Some topic =>
            let rot' :=
              {| ai_topics := ai_topics rot;
                 current_topic_index :=
                   (current_topic_index rot + 1) `mod` length topics |} in
            (post_ai_tweet E self (Some topic), rot')
        | None => ((Raised (IndexError "list index out of range"), []), rot)
        end
    | _ => (post_ai_tweet E self None, rot)
    end
  else (post_tweet E self, rot).

Definition raised (o : outcome) : bool :=
  match o with Raised _ => true | _ => false end.

(** The firings of the job, one world for each: an exception that leaves a
    firing leaves [run], so no firing follows it. *)
Fixpoint run_cycles (use_ai : bool) (self : TwitterAgent) (Es : list env)
    (rot : rotation) : list (outcome * trace) :=
  match Es with
  | [] => []
  | E :: Es' =>
      let '(result, rot') := scheduled_post use_ai E self rot in
      result :: (if raised result.1 then [] else run_cycles use_ai self Es' rot')
  end.

(** [run]: the job fires once at once and then whenever the scheduler finds
    it due; [Es] holds the worlds of the firings that happen. *)
Definition run (use_ai : bool) (topics : option (list string))
    (self : TwitterAgent) (Es : list env) : list (outcome * trace) :=
  run_cycles use_ai self Es (run_setup use_ai topics).

(** The generative client is there and the key is set. *)
Definition ai_available (self : TwitterAgent) : Prop :=
  _validate_ai_credentials self = true ∧ is_Some (ai_client self).

(** The backend answers with two spaces. *)
Definition E_ai_blank : env := {|
  choice := λ _, 0;
  random := λ _, (1 # 2)%Q;
  create_tweet := λ _ _, Raise (OtherException "403 Forbidden");
  update_status := λ _ _, Raise (OtherException "403 Forbidden");
  chat_completion := λ _, Ok (Completion [Some "  "])
|}.

(** The backend call of the [try] fails: it raises, or it answers without
    a choice, or the content of its first choice is [None]. *)
Definition backend_failed (E : env) (topic : option string) : Prop :=
  match chat_completion E topic with
  | Ok (Completion (Some _ :: _)) => False
  | _ => True
  end.

(** The backoff of the rounds [rs], in seconds. *)
Fixpoint sum_backoff (E : env) (rs : list nat) : Q :=
  match rs with
  | [] => 0
  | r :: rs' => (if decide (0 < r) then backoff_time E r else 0) + sum_backoff E rs'
  end.

(** The names of the credentials, in the order of the checks, each with the
    field that holds it. *)
Definition credential_table : list (string * (credentials → option string)) :=
  [ ("TWITTER_API_KEY", api_key);
    ("TWITTER_API_SECRET", api_secret);
    ("TWITTER_ACCESS_TOKEN", access_token);
    ("TWITTER_ACCESS_TOKEN_SECRET", access_token_secret);
    ("TWITTER_BEARER_TOKEN", bearer_token) ].

(** Only the bearer token and the access token are missing. *)
Definition some_credentials : credentials := {|
  api_key := Some "k"; api_secret := Some "s"; access_token := Some EmptyString;
  access_token_secret := Some "t"; bearer_token := None
|}.

(** The credentials that [__init__] reads (lines 44-48). *)
Definition read_credentials (dotenv environ : gmap string string) : credentials :=
  let env' := load_dotenv dotenv environ in
  {| api_key := getenv env' "TWITTER_API_KEY";
     api_secret := getenv env' "TWITTER_API_SECRET";
     access_token := getenv env' "TWITTER_ACCESS_TOKEN";
     access_token_secret := getenv env' "TWITTER_ACCESS_TOKEN_SECRET";
     bearer_token := getenv env' "TWITTER_BEARER_TOKEN" |}.

(** The interval that [__init__] reads, before [int] (line 49). *)
Definition read_interval (dotenv environ : gmap string string) : string :=
  default "60" (getenv (load_dotenv dotenv environ) "TWEET_INTERVAL_MINUTES").

(** ** [main] *)

(** How [main] ends: the agent could not be built (the exception is caught
    and logged), or it ran, with the results of the cycles that took place. *)
Inductive main_result : Type :=
| AgentFailed (x : init_exn)
| Cycles (results : list (outcome * trace)).

Definition interval_key : string := "TWEET_INTERVAL_MINUTES".

(** Lines 355-383: [main] sets the interval in the environment, builds the
    agent and runs it with [use_ai=True] and no topics. *)
Definition main (P : platform) (dotenv environ : gmap string string)
    (file : file_state) (Es : list env) : main_result :=
  match __init__ P dotenv (<[interval_key := "180"]> environ) file with
  | InitRaise x => AgentFailed x
  | InitOk a => Cycles (run true None (base a) Es)
  end.

(** A reading of decimal digits, to run the examples: [None] on any other
    character. *)
Fixpoint digits (acc : Z) (s : string) : option Z :=
  match s with
  | EmptyString => Some acc
  | String c s' =>
      let n := Z.of_nat (nat_of_ascii c) in
      if ((48 <=? n) && (n <=? 57))%Z then digits (10 * acc + (n - 48)) s' else None
  end.

(** A platform for the examples: its [int] reads the strings of decimal
    digits and raises on every other string, and its constructors return. *)
Definition int_of_digits (s : string) : init_res Z :=
  match s, digits 0 s with
  | String _ _, Some n => InitOk n
  | _, _ =>
      InitRaise (ValueError
        (String.append "invalid literal for int() with base 10: '" (String.append s "'")))
  end.

Definition P_digits : platform := {|
  int := int_of_digits;
  openai_init := λ _, InitOk ();
  tweepy_init := λ _, InitOk ()
|}.

(** A platform whose generative client cannot be built. *)
Definition P_no_openai : platform := {|
  int := int_of_digits;
  openai_init := λ _, InitRaise (InitExn (OtherException "unexpected keyword argument"));
  tweepy_init := λ _, InitOk ()
|}.

(** An environment with the five credentials, and one without the bearer
    token. *)
Definition full_environ : gmap string string :=
  <["TWITTER_API_KEY" := "k"]> (<["TWITTER_API_SECRET" := "s"]>
  (<["TWITTER_ACCESS_TOKEN" := "a"]> (<["TWITTER_ACCESS_TOKEN_SECRET" := "t"]>
  (<["TWITTER_BEARER_TOKEN" := "b"]> (<[interval_key := "15"]> ∅))))).

Definition partial_environ : gmap string string :=
  delete "TWITTER_BEARER_TOKEN" full_environ.

(** Closes a membership goal on a trace that computes. *)
Ltac in_trace :=
  vm_compute;
  repeat first [ apply list_elem_of_here | apply list_elem_of_further ].

(** ** The loop, round by round *)

Section Rounds.
Context (E : env) (corpus : list string).

Lemma for_retry_cons r rs st :
  (for_retry E corpus (r :: rs) st).2 =
    tag r (body E corpus r st).2 ++
    match (body E corpus r st).1 with
    | Continue st' => (for_retry E corpus rs st').2
    | _ => []
    end.
Proof.
  simpl. destruct (body E corpus r st) as [[st'|st'|o] evs]; simpl.
  - destruct (for_retry E corpus rs st'); reflexivity.
  - by rewrite app_nil_r.
  - by rewrite app_nil_r.
Qed.

Lemma elem_of_tag r r' ev evs : (r', ev) ∈ tag r evs ↔ r' = r ∧ ev ∈ evs.
Proof.
  unfold tag. rewrite list_elem_of_fmap. split.
  - intros (x & [= -> ->] & Hx). done.
  - intros [-> Hev]. eauto.
Qed.

Lemma for_retry_tags rs st r ev :
  (r, ev) ∈ (for_retry E corpus rs st).2 → r ∈ rs.
Proof.
  revert st. induction rs as [|r0 rs IH]; intros st.
  - simpl. by intros ?%not_elem_of_nil.
  - rewrite for_retry_cons, elem_of_app, elem_of_tag.
    intros [[-> _]|H]; [left|].
    destruct ((body E corpus r0 st).1); [right; eauto | by apply not_elem_of_nil in H..].
Qed.

Lemma round_events rs st r ev :
  NoDup rs →
  (r, ev) ∈ (for_retry E corpus rs st).2 ↔
  ∃ st_r, entry_state E corpus rs st r = Some st_r ∧ ev ∈ (body E corpus r st_r).2.
Proof.
  intros Hnd. revert st. induction Hnd as [|r0 rs Hr0 Hnd IH]; intros st.
  - simpl. split; [by intros ?%not_elem_of_nil | by intros (? & ? & ?)].
  - rewrite for_retry_cons, elem_of_app, elem_of_tag. simpl.
    destruct (decide (r0 = r)) as [->|Hne].
    + split.
      * intros [[_ H]|H]; [eauto|].
        destruct ((body E corpus r st).1); [|by apply not_elem_of_nil in H..].
        by apply for_retry_tags in H.
      * intros (st_r & [= <-] & H). by left.
    + destruct ((body E corpus r0 st).1) as [st'| |].
      * rewrite IH. split; [intros [[? _]|H]; done | by right].
      * split; [intros [[? _]|H%not_elem_of_nil]; done | by intros (? & ? & ?)].
      * split; [intros [[? _]|H%not_elem_of_nil]; done | by intros (? & ? & ?)].
Qed.

End Rounds.

Section RoundsOfRange.
Context (E : env) (corpus : list string).

Lemma entry_state_range a n st r st_r :
  entry_state E corpus (seq a n) st r = Some st_r → a ≤ r < a + n.
Proof.
  revert a st. induction n as [|n IH]; intros a st; simpl; [done|].
  case_decide; [intros _; lia|].
  destruct ((body E corpus a st).1); [|done..].
  intros Hr%IH. lia.
Qed.

Lemma entry_state_succ a n st r st' :
  entry_state E corpus (seq a n) st (S r) = Some st' → a ≤ r →
  ∃ st_r, entry_state E corpus (seq a n) st r = Some st_r
          ∧ (body E corpus r st_r).1 = Continue st'.
Proof.
  revert a st. induction n as [|n IH]; intros a st; simpl; [done|].
  intros H Har. rewrite decide_False in H by lia.
  destruct ((body E corpus a st).1) as [st2| |] eqn:Hb; [|done..].
  destruct (decide (a = r)) as [->|Hne].
  - exists st. split; [done|]. rewrite Hb. f_equal.
    destruct n as [|n]; simpl in H; [done|].
    rewrite decide_True in H by done. congruence.
  - apply IH in H as (st_r & H1 & H2); [|lia]. eauto.
Qed.

Lemma entry_state_next a n st r st_r st' :
  entry_state E corpus (seq a n) st r = Some st_r →
  (body E corpus r st_r).1 = Continue st' → S r < a + n →
  entry_state E corpus (seq a n) st (S r) = Some st'.
Proof.
  revert a st. induction n as [|n IH]; intros a st; [done|].
  intros H Hb Hlt. pose proof (entry_state_range _ _ _ _ _ H) as Hr.
  simpl in *. rewrite decide_False by lia.
  destruct (decide (a = r)) as [->|Hne].
  - injection H as ->. rewrite Hb.
    destruct n as [|n]; [lia|]. simpl. by rewrite decide_True.
  - destruct ((body E corpus a st).1) as [st2| |]; [|done..].
    apply (IH _ _ H Hb). lia.
Qed.

End RoundsOfRange.

(** ** One round *)

Section OneRound.
Context (E : env).

(** What a pass through the methods does, by the answers of the two
    channels. *)
Lemma deliver_spec retry st :
  let t := tweet st in
  match create_tweet E retry t with
  | Ok (RespData id) =>
      deliver E retry st = (Exit (Posted method1_name id t), [CreateTweet t])
  | Raise (TooManyRequests _) =>
      ∃ st', deliver E retry st = (Continue st', [CreateTweet t])
             ∧ tweet st' = t ∧ used_tweets st' = used_tweets st
  | _ =>
      match update_status E retry t with
      | Ok (Status (Some id)) =>
          deliver E retry st
          = (Exit (Posted method2_name id t), [CreateTweet t; UpdateStatus t])
      | Raise (TooManyRequests _) =>
          ∃ st', deliver E retry st = (Continue st', [CreateTweet t; UpdateStatus t])
                 ∧ tweet st' = t ∧ used_tweets st' = used_tweets st
      | _ =>
          deliver E retry st
          = (Exit (Raised unbound_e), [CreateTweet t; UpdateStatus t])
      end
  end.
Proof.
  unfold deliver, method2, after_methods; simpl.
  destruct (create_tweet E retry (tweet st)) as [[id| |]|[]]; simpl; eauto;
    destruct (update_status E retry (tweet st)) as [[[id'|]]|[]]; simpl; eauto.
Qed.

Lemma deliver_events retry st :
  (deliver E retry st).2 = [CreateTweet (tweet st)]
  ∨ (deliver E retry st).2 = [CreateTweet (tweet st); UpdateStatus (tweet st)].
Proof.
  pose proof (deliver_spec retry st) as H. simpl in H.
  destruct (create_tweet E retry (tweet st)) as [[| |]|[]];
    try destruct (update_status E retry (tweet st)) as [[[|]]|[]];
    try destruct H as (? & H & _); rewrite H; auto.
Qed.

Lemma deliver_continue retry st st' :
  (deliver E retry st).1 = Continue st' →
  tweet st' = tweet st ∧ used_tweets st' = used_tweets st.
Proof.
  pose proof (deliver_spec retry st) as H. simpl in H.
  destruct (create_tweet E retry (tweet st)) as [[| |]|[]];
    try destruct (update_status E retry (tweet st)) as [[[|]]|[]];
    try destruct H as (? & H & ? & ?); rewrite H; simpl; intros [= <-]; auto.
Qed.

(** The [break] of line 206 is never taken. *)
Lemma deliver_no_break retry st st' : (deliver E retry st).1 ≠ Break st'.
Proof.
  pose proof (deliver_spec retry st) as H. simpl in H.
  destruct (create_tweet E retry (tweet st)) as [[| |]|[]];
    try destruct (update_status E retry (tweet st)) as [[[|]]|[]];
    try destruct H as (? & H & ? & ?); rewrite H; simpl; done.
Qed.

Context (corpus : list string).

Lemma body_selected retry st :
  body E corpus retry st =
    match selected E corpus retry st with
    | Ok st1 => ((deliver E retry st1).1, backoff E retry ++ (deliver E retry st1).2)
    | Raise ex => (Exit (Raised ex), backoff E retry)
    end.
Proof.
  unfold body, selected, backoff. case_decide; simpl.
  - destruct (select_retry corpus (choice E retry) st); [|done].
    by destruct (deliver E retry a).
  - by destruct (deliver E retry st).
Qed.

End OneRound.

(** ** Selection *)

Lemma random_choice_elem seq draw t : random_choice seq draw = Ok t → t ∈ seq.
Proof.
  destruct seq as [|x seq'] eqn:Hseq; [done|]. unfold random_choice.
  rewrite <- Hseq. intros [= <-].
  apply list_elem_of_In, nth_In, Nat.mod_upper_bound.
  rewrite Hseq. cbn [length]. lia.
Qed.

Lemma random_choice_nonempty seq draw :
  seq ≠ [] → ∃ t, random_choice seq draw = Ok t.
Proof. destruct seq; [done|]. unfold random_choice. eauto. Qed.

Lemma available_nil (used : gset string) corpus :
  filter (λ t, t ∉ used) corpus = [] ↔ covers used corpus.
Proof.
  unfold covers. split.
  - intros H t Ht. destruct (decide (t ∈ used)) as [|Hn]; [done|].
    assert (t ∈ filter (λ t, t ∉ used) corpus) as Hin
      by (apply list_elem_of_filter; done).
    rewrite H in Hin. by apply not_elem_of_nil in Hin.
  - intros H. apply elem_of_nil_inv. intros t [Hn Ht]%list_elem_of_filter.
    apply Hn, H, Ht.
Qed.

(** Lines 161-169, case by case. *)
Lemma select_retry_spec corpus draw st :
  corpus ≠ [] →
  ∃ st', select_retry corpus draw st = Ok st'
    ∧ tweet st' ∈ corpus
    ∧ methods_tried st' = methods_tried st ∧ e st' = e st
    ∧ (covers (used_tweets st) corpus → used_tweets st' = {[tweet st']} ∪ ∅)
    ∧ (¬ covers (used_tweets st) corpus →
         (tweet st' ∉ used_tweets st)
         ∧ used_tweets st' = {[tweet st']} ∪ used_tweets st).
Proof.
  intros Hne. unfold select_retry.
  destruct (filter (λ t, t ∉ used_tweets st) corpus) as [|x av] eqn:Hav.
  - apply available_nil in Hav.
    destruct (random_choice_nonempty corpus draw Hne) as [t Ht]. rewrite Ht.
    eexists; split; [done|]. simpl.
    split; [by eapply random_choice_elem|]. done.
  - destruct (random_choice_nonempty (x :: av) draw) as [t Ht]; [done|].
    rewrite Ht. apply random_choice_elem in Ht. rewrite <- Hav in Ht.
    apply list_elem_of_filter in Ht as [Hnew Hin].
    assert (¬ covers (used_tweets st) corpus) by (intros Hc; apply Hnew, Hc, Hin).
    eexists; split; [done|]. simpl. done.
Qed.

Lemma select_retry_fails corpus draw st ex :
  select_retry corpus draw st = Raise ex → corpus = [].
Proof.
  destruct corpus as [|x c]; [done|]. intros H.
  destruct (select_retry_spec (x :: c) draw st) as (? & H' & _); [done|]. congruence.
Qed.

(** ** The rounds of a run of [post_tweet] *)

Section Run.
Context (E : env) (self : TwitterAgent).

Lemma post_tweet_run t0 :
  random_choice (tweets self) (choice E 0) = Ok t0 →
  post_tweet E self
  = for_retry E (tweets self) (seq 0 (max_retries + 1)) (first_locals t0).
Proof.
  unfold post_tweet. intros H. rewrite H.
  destruct (tweets self); [done|reflexivity].
Qed.

Lemma post_tweet_empty : tweets self = [] → post_tweet E self = (NoTweets, []).
Proof. unfold post_tweet. by intros ->. Qed.

Lemma round_entry_nonempty r st : round_entry E self r = Some st → tweets self ≠ [].
Proof. unfold round_entry. intros H Hnil. by rewrite Hnil in H. Qed.

Lemma round_entry_0 :
  tweets self ≠ [] →
  ∃ t0, t0 ∈ tweets self
        ∧ random_choice (tweets self) (choice E 0) = Ok t0
        ∧ round_entry E self 0 = Some (first_locals t0).
Proof.
  intros Hne. destruct (random_choice_nonempty _ (choice E 0) Hne) as [t0 H0].
  exists t0. split; [by eapply random_choice_elem|]. split; [done|].
  unfold round_entry. by rewrite H0.
Qed.

Lemma round_entry_range r st : round_entry E self r = Some st → r ≤ max_retries.
Proof.
  unfold round_entry. destruct (random_choice _ _); [|done].
  intros H%entry_state_range. lia.
Qed.

Lemma round_entry_succ r st' :
  round_entry E self (S r) = Some st' →
  ∃ st_r, round_entry E self r = Some st_r
          ∧ (body E (tweets self) r st_r).1 = Continue st'.
Proof.
  unfold round_entry. destruct (random_choice _ _); [|done].
  intros H. apply entry_state_succ in H; [done|lia].
Qed.

Lemma round_entry_next r st_r st' :
  round_entry E self r = Some st_r →
  (body E (tweets self) r st_r).1 = Continue st' → r < max_retries →
  round_entry E self (S r) = Some st'.
Proof.
  unfold round_entry. destruct (random_choice _ _); [|done].
  intros H Hb Hr. eapply entry_state_next; eauto. lia.
Qed.

Lemma post_tweet_events r ev :
  (r, ev) ∈ (post_tweet E self).2 ↔
  ∃ st_r, round_entry E self r = Some st_r
          ∧ ev ∈ (body E (tweets self) r st_r).2.
Proof.
  unfold round_entry.
  destruct (random_choice (tweets self) (choice E 0)) as [t0|ex] eqn:H0.
  - rewrite (post_tweet_run _ H0). apply round_events, NoDup_seq.
  - unfold post_tweet. rewrite H0. destruct (tweets self); simpl;
      (split; [by intros ?%not_elem_of_nil | by intros (? & ? & ?)]).
Qed.

Lemma round_selected r st_r :
  round_entry E self r = Some st_r →
  ∃ st1, selected E (tweets self) r st_r = Ok st1.
Proof.
  intros Hne%round_entry_nonempty. unfold selected. case_decide; [|eauto].
  destruct (select_retry_spec _ (choice E r) st_r Hne) as (st1 & H1 & _). eauto.
Qed.

(** Every round that is entered calls [create_tweet] with its tweet. *)
Lemma round_create r st_r st1 :
  round_entry E self r = Some st_r →
  selected E (tweets self) r st_r = Ok st1 →
  (r, CreateTweet (tweet st1)) ∈ (post_tweet E self).2.
Proof.
  intros Hent Hsel. apply post_tweet_events. exists st_r. split; [done|].
  rewrite body_selected, Hsel. simpl. apply elem_of_app. right.
  destruct (deliver_events E r st1) as [-> | ->]; apply list_elem_of_here.
Qed.

(** Every text that a channel receives in round [r] is the tweet of that
    round. *)
Lemma round_posted r ev m :
  (r, ev) ∈ (post_tweet E self).2 → posted_text ev = Some m →
  ∃ st_r st1, round_entry E self r = Some st_r
              ∧ selected E (tweets self) r st_r = Ok st1
              ∧ tweet st1 = m ∧ ev ∈ (deliver E r st1).2.
Proof.
  intros (st_r & Hent & Hev)%post_tweet_events Hm.
  destruct (round_selected _ _ Hent) as [st1 Hsel].
  exists st_r, st1. rewrite body_selected, Hsel in Hev. simpl in Hev.
  apply elem_of_app in Hev as [Hev|Hev].
  { unfold backoff in Hev. case_decide; [|by apply not_elem_of_nil in Hev].
    apply list_elem_of_singleton in Hev as ->. done. }
  repeat split; try done.
  destruct (deliver_events E r st1) as [H|H]; rewrite H in Hev;
    repeat (apply elem_of_cons in Hev as [->|Hev]; [simpl in Hm; congruence|]);
    by apply not_elem_of_nil in Hev.
Qed.

(** The sleeps of a run: one per retry round, at its start. *)
Lemma round_sleep r d :
  (r, Sleep d) ∈ (post_tweet E self).2 → 0 < r ∧ d = backoff_time E r.
Proof.
  intros (st_r & Hent & Hev)%post_tweet_events.
  rewrite body_selected in Hev.
  assert (Sleep d ∈ backoff E r) as Hb.
  { destruct (selected E (tweets self) r st_r) as [st1|]; [|done]. simpl in Hev.
    apply elem_of_app in Hev as [Hev|Hev]; [done|].
    destruct (deliver_events E r st1) as [H|H]; rewrite H in Hev;
      repeat (apply elem_of_cons in Hev as [[=]|Hev]);
      by apply not_elem_of_nil in Hev. }
  unfold backoff in Hb. case_decide; [|by apply not_elem_of_nil in Hb].
  apply list_elem_of_singleton in Hb as [= ->]. done.
Qed.

End Run.

(** ** The number of rounds *)

Lemma deliver_rounds_app tr1 tr2 :
  deliver_rounds (tr1 ++ tr2) = deliver_rounds tr1 + deliver_rounds tr2.
Proof. unfold deliver_rounds. by rewrite filter_app, length_app. Qed.

Lemma deliver_rounds_body E corpus r st :
  deliver_rounds (tag r (body E corpus r st).2) ≤ 1.
Proof.
  rewrite body_selected.
  assert (deliver_rounds (tag r (backoff E r)) = 0) as Hb
    by (unfold backoff; case_decide; reflexivity).
  destruct (selected E corpus r st) as [st1|ex]; simpl; [|lia].
  unfold tag in *. rewrite fmap_app, deliver_rounds_app, Hb.
  destruct (deliver_events E r st1) as [-> | ->]; vm_compute; lia.
Qed.

Lemma for_retry_rounds E corpus rs st :
  deliver_rounds (for_retry E corpus rs st).2 ≤ length rs.
Proof.
  revert st. induction rs as [|r rs IH]; intros st; [vm_compute; lia|].
  rewrite for_retry_cons, deliver_rounds_app. cbn [length].
  pose proof (deliver_rounds_body E corpus r st).
  destruct ((body E corpus r st).1) as [st'| |]; [specialize (IH st')| |];
    change (deliver_rounds []) with 0 in *; lia.
Qed.

(** C7: in every run of [post_tweet] the channel loop is passed at most
    [max_retries + 1] times, where [max_retries] is 5; every call of the run
    is made in a round [retry <= max_retries], so the loop ends. *)
Theorem post_tweet_rounds_bounded (E : env) (self : TwitterAgent) :
  max_retries = 5
  ∧ deliver_rounds (post_tweet E self).2 ≤ max_retries + 1
  ∧ ∀ r ev, (r, ev) ∈ (post_tweet E self).2 → r ≤ max_retries.
Proof.
  split; [reflexivity|]. split.
  - unfold post_tweet. destruct (tweets self) as [|x l] eqn:Hl; [vm_compute; lia|].
    destruct (random_choice (x :: l) (choice E 0)); [|vm_compute; lia].
    etrans; [apply for_retry_rounds|]. by rewrite length_seq.
  - intros r ev (st_r & Hent & _)%post_tweet_events.
    by eapply round_entry_range.
Qed.

(** The run over ["A"; "B"] with both channels rate limited reaches round 5. *)
Lemma post_tweet_rounds_bounded_witness :
  (5, CreateTweet "B") ∈ (post_tweet E_rate_limited agent_AB).2 ∧ 5 ≤ max_retries.
Proof.
  assert ((5, CreateTweet "B") ∈ (post_tweet E_rate_limited agent_AB).2) as Hin
    by in_trace.
  split; [exact Hin|].
  exact (proj2 (proj2 (post_tweet_rounds_bounded E_rate_limited agent_AB)) 5 _ Hin).
Defined.

(** ** Float rounding *)

Section FloatFacts.
Import Float.
Local Open Scope Q_scope.

Lemma pow2_pos e : 0 < pow2 e.
Proof.
  unfold pow2. destruct (e <? 0)%Z eqn:He; [reflexivity|].
  apply Z.ltb_ge in He. change 0 with (inject_Z 0). rewrite <- Zlt_Qlt.
  by apply Z.pow_pos_nonneg.
Qed.

(** For [e <= 0] the power [2^e] is the inverse of the integer [2^-e]. *)
Lemma pow2_nonpos e : (e <= 0)%Z → pow2 e * inject_Z (2 ^ (- e)) == 1.
Proof.
  intros He. unfold pow2. destruct (e <? 0)%Z eqn:Hlt.
  - apply Z.ltb_lt in Hlt.
    assert (0 < 2 ^ (- e))%Z as Hp by (apply Z.pow_pos_nonneg; lia).
    remember (2 ^ (- e))%Z as P. unfold Qeq, Qmult, inject_Z. cbn [Qnum Qden].
    rewrite Pos.mul_1_r, Z2Pos.id by done. lia.
  - apply Z.ltb_ge in Hlt. assert (e = 0)%Z as -> by lia. reflexivity.
Qed.

Lemma pow2_ge e k : (0 <= k <= e)%Z → inject_Z (2 ^ k) <= pow2 e.
Proof.
  intros [Hk He]. unfold pow2. rewrite (proj2 (Z.ltb_ge e 0)) by lia.
  rewrite <- Zle_Qle. apply Z.pow_le_mono_r; lia.
Qed.

(** The exponent is no overestimate. *)
Lemma exponent_le x : 0 < x → pow2 (exponent x) <= x.
Proof.
  intros Hx. unfold exponent.
  set (e0 := (Z.log2 (Qnum x) - Z.log2 (Z.pos (Qden x)))%Z).
  destruct (Qle_bool (pow2 e0) x) eqn:Hb; [by apply Qle_bool_iff|].
  clear Hb. destruct x as [n d]. unfold Qlt in Hx. simpl in Hx, e0.
  assert (e0 = Z.log2 n - Z.log2 (Z.pos d))%Z as He0 by done. clearbody e0.
  assert (0 < n)%Z as Hn by lia.
  destruct (Z.log2_spec n Hn) as [Hn1 _].
  destruct (Z.log2_spec (Z.pos d) (Pos2Z.is_pos d)) as [_ Hd2].
  pose proof (Z.log2_nonneg n) as Hln. pose proof (Z.log2_nonneg (Z.pos d)) as Hld.
  unfold pow2. destruct (e0 - 1 <? 0)%Z eqn:Hlt.
  - apply Z.ltb_lt in Hlt.
    assert (0 < 2 ^ (- (e0 - 1)))%Z as Hp by (apply Z.pow_pos_nonneg; lia).
    replace (- (e0 - 1))%Z with (Z.succ (Z.log2 (Z.pos d)) - Z.log2 n)%Z in * by lia.
    remember (2 ^ (Z.succ (Z.log2 (Z.pos d)) - Z.log2 n))%Z as P.
    unfold Qle. cbn [Qnum Qden]. rewrite Z2Pos.id by done.
    assert (2 ^ Z.log2 n * P = 2 ^ Z.succ (Z.log2 (Z.pos d)))%Z as Hpow.
    { subst P. rewrite <- Z.pow_add_r by lia. f_equal. lia. }
    nia.
  - apply Z.ltb_ge in Hlt.
    assert (2 ^ (e0 - 1) * 2 ^ Z.succ (Z.log2 (Z.pos d)) = 2 ^ Z.log2 n)%Z as Hpow.
    { rewrite <- Z.pow_add_r by lia. f_equal. lia. }
    assert (0 < 2 ^ (e0 - 1))%Z by (apply Z.pow_pos_nonneg; lia).
    remember (2 ^ (e0 - 1))%Z as P. unfold Qle, inject_Z. cbn [Qnum Qden].
    nia.
Qed.

Lemma rne_ge (A : Z) (m : Q) : inject_Z A <= m → (A <= rne m)%Z.
Proof.
  intros H. assert (A <= Qfloor m)%Z as Hf.
  { rewrite <- (Qfloor_Z A). by apply Qfloor_resp_le. }
  unfold rne. destruct (m - inject_Z (Qfloor m) ?= 1 # 2);
    [destruct (Z.even (Qfloor m))| |]; lia.
Qed.

Lemma rne_le (B : Z) (m : Q) : m <= inject_Z B → (rne m <= B)%Z.
Proof.
  intros H. assert (Qfloor m <= B)%Z as Hf.
  { rewrite <- (Qfloor_Z B). by apply Qfloor_resp_le. }
  destruct (decide (Qfloor m = B)) as [Heq|Hne].
  - pose proof (Qfloor_le m) as Hfl. unfold rne. rewrite Heq in *.
    assert ((m - inject_Z B ?= 1 # 2) = Lt) as ->; [|lia].
    rewrite <- Qlt_alt. lra.
  - unfold rne. destruct (m - inject_Z (Qfloor m) ?= 1 # 2);
      [destruct (Z.even (Qfloor m))| |]; lia.
Qed.

(** Rounding does not cross an integer below [2^53]: integers of that size
    are floats. *)
Lemma round_between (a b : Z) (x : Q) :
  (0 <= a)%Z → (b < 2 ^ 53)%Z →
  inject_Z a <= x <= inject_Z b →
  inject_Z a <= round x <= inject_Z b.
Proof.
  intros Ha Hb [Hax Hxb]. unfold round.
  assert (0 <= x) as Hx0.
  { apply Qle_trans with (inject_Z a); [|done].
    change 0 with (inject_Z 0). by rewrite <- Zle_Qle. }
  destruct (Qeq_bool x 0) eqn:Hz.
  { apply Qeq_bool_iff in Hz. rewrite Hz in Hax, Hxb. split; done. }
  apply Qeq_bool_neq in Hz.
  assert (0 < x) as Hx by (apply Qle_lteq in Hx0 as [|Heq]; [done|by destruct Hz]).
  rewrite (proj2 (Qle_bool_iff 0 x)) by done.
  assert (Qabs x = x) as ->.
  { destruct x as [[|p|p] d]; done. }
  rewrite Qred_correct.
  set (e := exponent x). pose proof (exponent_le x Hx) as He. fold e in He.
  assert (e <= 52)%Z as He52.
  { destruct (decide (e <= 52)%Z) as [|Hgt]; [done|]. exfalso.
    pose proof (pow2_ge e 53 ltac:(lia)) as Hp.
    assert (inject_Z b < inject_Z (2 ^ 53)) by (by rewrite <- Zlt_Qlt).
    lra. }
  set (E := (Z.max e (-1022) - 52)%Z). assert (E <= 0)%Z as HE by lia.
  pose proof (pow2_pos E) as Hu. pose proof (pow2_nonpos E HE) as Hinv.
  set (ulp := pow2 E) in *. set (K := (2 ^ (- E))%Z) in *.
  assert (0 < K)%Z as HK by (apply Z.pow_pos_nonneg; lia).
  assert (0 < inject_Z K) as HKq by (change 0 with (inject_Z 0); by rewrite <- Zlt_Qlt).
  assert (∀ n : Z, inject_Z (n * K) * ulp == inject_Z n) as Hscale.
  { intros n. rewrite inject_Z_mult.
    rewrite <- Qmult_assoc, (Qmult_comm (inject_Z K)), Hinv. ring. }
  split.
  - rewrite <- (Hscale a). apply Qmult_le_compat_r; [|lra].
    rewrite <- Zle_Qle. apply rne_ge. apply Qle_shift_div_l; [done|].
    rewrite Hscale. done.
  - rewrite <- (Hscale b). apply Qmult_le_compat_r; [|lra].
    rewrite <- Zle_Qle. apply rne_le. apply Qle_shift_div_r; [done|].
    rewrite Hscale. done.
Qed.

Lemma round_nonneg x : 0 <= x → 0 <= round x.
Proof.
  intros Hx. unfold round. destruct (Qeq_bool x 0) eqn:Hz; [done|].
  rewrite (proj2 (Qle_bool_iff 0 x)) by done. rewrite Qred_correct.
  apply Qmult_le_0_compat; [|apply Qlt_le_weak, pow2_pos].
  change 0 with (inject_Z 0). rewrite <- Zle_Qle. apply rne_ge.
  apply Qle_shift_div_l; [apply pow2_pos|]. rewrite Qmult_0_l. apply Qabs_nonneg.
Qed.

End FloatFacts.

(** ** Backoff *)

(** The calls of a round that is entered form one block of the trace. *)
Lemma round_segment E corpus rs st r st_r :
  entry_state E corpus rs st r = Some st_r →
  ∃ pre post,
    (for_retry E corpus rs st).2 = pre ++ tag r (body E corpus r st_r).2 ++ post.
Proof.
  revert st. induction rs as [|r0 rs IH]; intros st; [done|].
  rewrite for_retry_cons. simpl. case_decide as Hr.
  - intros [= <-]. subst r0. exists []. simpl. eauto.
  - destruct ((body E corpus r0 st).1) as [st'| |]; [|done..].
    intros (pre & post & ->)%IH.
    exists (tag r0 (body E corpus r0 st).2 ++ pre), post. by rewrite <- app_assoc.
Qed.

Lemma of_int_exact n : (0 <= n < 2 ^ 53)%Z → (Float.of_int n == inject_Z n)%Q.
Proof.
  intros [H0 Hn]. unfold Float.of_int.
  destruct (round_between n n (inject_Z n) H0 Hn) as [H1 H2]; [split; apply Qle_refl|].
  by apply Qle_antisym.
Qed.

(** The jitter [random.uniform(0, 10)] lies in [0, 10]. *)
Lemma uniform_bounds E r :
  (0 <= random E r < 1)%Q → (0 <= uniform E r 0 10 <= 10)%Q.
Proof.
  intros [H0 H1]. unfold uniform, Float.add, Float.mul.
  change (10 - 0)%Z with 10%Z.
  pose proof (of_int_exact 0 ltac:(done)) as Hz.
  pose proof (of_int_exact 10 ltac:(done)) as Ht.
  assert (0 <= Float.round (Float.of_int 10 * random E r) <= 10)%Q as Hm.
  { apply (round_between 0 10); [done..|]. rewrite Ht.
    change (inject_Z 0) with 0%Q. change (inject_Z 10) with 10%Q. split; lra. }
  change (inject_Z 0) with 0%Q in *. change (inject_Z 10) with 10%Q in *.
  apply (round_between 0 10); [done..|]. rewrite Hz.
  change (inject_Z 0) with 0%Q. change (inject_Z 10) with 10%Q. split; lra.
Qed.

Lemma backoff_base_range r :
  1 ≤ r ≤ max_retries →
  (60 <= initial_backoff * 2 ^ (Z.of_nat r - 1) <= 960)%Z.
Proof.
  unfold max_retries, initial_backoff. intros Hr.
  assert (r = 1 ∨ r = 2 ∨ r = 3 ∨ r = 4 ∨ r = 5) as [->|[->|[->|[->| ->]]]] by lia;
    done.
Qed.

Lemma backoff_time_bounds E r :
  1 ≤ r ≤ max_retries → (0 <= random E r < 1)%Q →
  (inject_Z (initial_backoff * 2 ^ (Z.of_nat r - 1)) <= backoff_time E r
   <= inject_Z (initial_backoff * 2 ^ (Z.of_nat r - 1)) + 10)%Q.
Proof.
  intros Hr Hj. pose proof (backoff_base_range r Hr) as Hb.
  pose proof (uniform_bounds E r Hj) as Hu.
  unfold backoff_time, Float.add.
  set (base := (initial_backoff * 2 ^ (Z.of_nat r - 1))%Z) in *.
  pose proof (of_int_exact base ltac:(lia)) as Hbase.
  change 10%Q with (inject_Z 10). rewrite <- inject_Z_plus.
  apply round_between; [lia|lia|]. rewrite Hbase, inject_Z_plus.
  change (inject_Z 10) with 10%Q. clearbody base. lra.
Qed.

Lemma sleep_round E self r d :
  (r, Sleep d) ∈ (post_tweet E self).2 → 1 ≤ r ≤ max_retries ∧ d = backoff_time E r.
Proof.
  intros Hin. destruct (round_sleep _ _ _ _ Hin) as [Hr ->].
  apply post_tweet_events in Hin as (st_r & Hent & _).
  apply round_entry_range in Hent. split; [lia|done].
Qed.

(** C8: in every run of [post_tweet] whose draws of [random.random()] lie
    in [0, 1), each sleep is made in a retry round [r >= 1] and lasts the sum
    of [60 * 2^(r-1)] and the jitter [random.uniform(0, 10)], added as line
    157 adds them, in floats; the jitter lies in [0, 10] and the sleep
    between [60 * 2^(r-1)] and [60 * 2^(r-1) + 10], so that it exceeds
    [60 * 2^(r-1)] by an amount in [0, 10], with no cap on it; and each retry
    round that is entered starts with that sleep, followed at once by the post
    of the newly selected tweet. *)
Theorem backoff_delay_interval (E : env) (self : TwitterAgent) :
  (∀ r, (0 <= random E r < 1)%Q) →
  initial_backoff = 60%Z
  ∧ (∀ r d, (r, Sleep d) ∈ (post_tweet E self).2 →
       1 ≤ r
       ∧ d = Float.add (Float.of_int (60 * 2 ^ (Z.of_nat r - 1))) (uniform E r 0 10)
       ∧ (Float.of_int (60 * 2 ^ (Z.of_nat r - 1))
          == inject_Z (60 * 2 ^ (Z.of_nat r - 1)))%Q
       ∧ (0 <= uniform E r 0 10 <= 10)%Q
       ∧ (inject_Z (60 * 2 ^ (Z.of_nat r - 1)) <= d
          <= inject_Z (60 * 2 ^ (Z.of_nat r - 1)) + 10)%Q
       ∧ ∃ jitter, (0 <= jitter <= 10)%Q
                   ∧ (d == inject_Z (60 * 2 ^ (Z.of_nat r - 1)) + jitter)%Q)
  ∧ (∀ r st_r, 1 ≤ r → round_entry E self r = Some st_r →
       ∃ pre m post,
         (post_tweet E self).2
         = pre ++ (r, Sleep (backoff_time E r)) :: (r, CreateTweet m) :: post).
Proof.
  intros Hj. split; [reflexivity|]. split.
  - intros r d [Hr ->]%sleep_round. split; [lia|]. split; [reflexivity|].
    split; [apply of_int_exact; pose proof (backoff_base_range r Hr);
            unfold initial_backoff in *; lia|].
    split; [apply uniform_bounds, Hj|].
    pose proof (backoff_time_bounds E r Hr (Hj r)) as Hb.
    unfold initial_backoff in Hb. split; [exact Hb|].
    exists (backoff_time E r - inject_Z (60 * 2 ^ (Z.of_nat r - 1)))%Q.
    split; [lra|ring].
  - intros r st_r Hr Hent.
    destruct (round_selected _ _ _ _ Hent) as [st1 Hsel].
    unfold round_entry in Hent.
    destruct (random_choice (tweets self) (choice E 0)) as [t0|] eqn:H0; [|done].
    rewrite (post_tweet_run _ _ _ H0).
    apply round_segment in Hent as (pre & post & ->).
    rewrite body_selected, Hsel. cbn [fst snd]. unfold backoff.
    rewrite decide_True by lia. exists pre, (tweet st1).
    destruct (deliver_events E r st1) as [-> | ->]; cbn [app tag fmap list_fmap]; eauto.
Qed.

(** With a draw of 1/2, hence a jitter of 5 seconds, the sleep of round 1
    lasts 65 seconds. *)
Lemma backoff_delay_interval_witness :
  (1, Sleep (65 # 1)) ∈ (post_tweet E_rate_limited agent_AB).2
  ∧ 1 ≤ 1
  ∧ (65 # 1)
    = Float.add (Float.of_int (60 * 2 ^ (Z.of_nat 1 - 1))) (uniform E_rate_limited 1 0 10)
  ∧ (Float.of_int (60 * 2 ^ (Z.of_nat 1 - 1)) == inject_Z (60 * 2 ^ (Z.of_nat 1 - 1)))%Q
  ∧ (0 <= uniform E_rate_limited 1 0 10 <= 10)%Q
  ∧ (inject_Z (60 * 2 ^ (Z.of_nat 1 - 1)) <= 65 # 1
     <= inject_Z (60 * 2 ^ (Z.of_nat 1 - 1)) + 10)%Q
  ∧ ∃ jitter, (0 <= jitter <= 10)%Q
              ∧ (65 # 1 == inject_Z (60 * 2 ^ (Z.of_nat 1 - 1)) + jitter)%Q.
Proof.
  assert (∀ r, (0 <= random E_rate_limited r < 1)%Q) as Hj.
  { intros r. simpl. split; [unfold Qle|unfold Qlt]; simpl; lia. }
  assert ((1, Sleep (65 # 1)) ∈ (post_tweet E_rate_limited agent_AB).2) as Hin
    by in_trace.
  split; [exact Hin|].
  exact (proj1 (proj2 (backoff_delay_interval E_rate_limited agent_AB Hj)) 1 _ Hin).
Defined.

(** A draw whose jitter is the double nearest to 0.1. *)
Lemma backoff_is_rounded :
  uniform E_tenth 1 0 10 = (3602879701896397 # 36028797018963968)%Q
  ∧ backoff_time E_tenth 1 = (8458323050155213 # 140737488355328)%Q
  ∧ ¬ (backoff_time E_tenth 1 == 60 + uniform E_tenth 1 0 10)%Q.
Proof. split; [by vm_compute|]. split; [by vm_compute|]. by vm_compute. Qed.

(** ** Rate limits *)

Section RateLimits.
Context (E : env) (self : TwitterAgent).

Lemma round_backoff r st_r :
  round_entry E self r = Some st_r → 0 < r →
  (r, Sleep (backoff_time E r)) ∈ (post_tweet E self).2.
Proof.
  intros Hent Hr. apply post_tweet_events. exists st_r. split; [done|].
  rewrite body_selected. unfold backoff. rewrite decide_True by done.
  destruct (selected E (tweets self) r st_r); simpl; apply list_elem_of_here.
Qed.

(** A round that ends with [continue] while retries are left is followed
    by a sleep and a new pass through the channels. *)
Lemma round_continue r st_r st' :
  round_entry E self r = Some st_r →
  (body E (tweets self) r st_r).1 = Continue st' → r < max_retries →
  ∃ m, (S r, Sleep (backoff_time E (S r))) ∈ (post_tweet E self).2
       ∧ (S r, CreateTweet m) ∈ (post_tweet E self).2.
Proof.
  intros Hent Hb Hr.
  pose proof (round_entry_next _ _ _ _ _ Hent Hb Hr) as Hnext.
  destruct (round_selected _ _ _ _ Hnext) as [st1 Hsel].
  exists (tweet st1). split.
  - eapply round_backoff; [done|lia].
  - by eapply round_create.
Qed.

Lemma rich_rate_limit_aborts r m s :
  (r, CreateTweet m) ∈ (post_tweet E self).2 →
  create_tweet E r m = Raise (TooManyRequests s) →
  (∀ m', (r, UpdateStatus m') ∉ (post_tweet E self).2)
  ∧ (r < max_retries →
     ∃ m', (S r, Sleep (backoff_time E (S r))) ∈ (post_tweet E self).2
           ∧ (S r, CreateTweet m') ∈ (post_tweet E self).2).
Proof.
  intros Hin Hrl.
  destruct (round_posted _ _ _ _ _ Hin eq_refl) as (st_r & st1 & Hent & Hsel & <- & _).
  pose proof (deliver_spec E r st1) as Hd. simpl in Hd. rewrite Hrl in Hd.
  destruct Hd as (st' & Hd & _).
  assert (body E (tweets self) r st_r
          = (Continue st', backoff E r ++ [CreateTweet (tweet st1)])) as Hb
    by (by rewrite body_selected, Hsel, Hd).
  split.
  - intros m' (st_r' & Hent' & Hev)%post_tweet_events.
    rewrite Hent in Hent'. injection Hent' as <-. rewrite Hb in Hev. simpl in Hev.
    unfold backoff in Hev. case_decide;
      repeat (apply elem_of_cons in Hev as [[=]|Hev]);
      by apply not_elem_of_nil in Hev.
  - intros Hr. eapply round_continue; [done| |done]. by rewrite Hb.
Qed.

Lemma legacy_rate_limit_retries r m s :
  (r, UpdateStatus m) ∈ (post_tweet E self).2 →
  update_status E r m = Raise (TooManyRequests s) →
  r < max_retries →
  ∃ m', (S r, Sleep (backoff_time E (S r))) ∈ (post_tweet E self).2
        ∧ (S r, CreateTweet m') ∈ (post_tweet E self).2.
Proof.
  intros Hin Hrl Hr.
  destruct (round_posted _ _ _ _ _ Hin eq_refl) as (st_r & st1 & Hent & Hsel & <- & Hev).
  pose proof (deliver_spec E r st1) as Hd. simpl in Hd. rewrite Hrl in Hd.
  assert (∃ st', (deliver E r st1).1 = Continue st') as [st' Hc].
  { destruct (create_tweet E r (tweet st1)) as [[| |]|[]];
      try (destruct Hd as (? & -> & _); by eauto).
    rewrite Hd in Hev. simpl in Hev.
    repeat (apply elem_of_cons in Hev as [[=]|Hev]). by apply not_elem_of_nil in Hev. }
  eapply round_continue; [done| |done]. by rewrite body_selected, Hsel.
Qed.

(** [post_ai_tweet] has one round: it never sleeps. *)
Lemma post_ai_tweet_no_sleep topic r d :
  (r, Sleep d) ∉ (post_ai_tweet E self topic).2.
Proof.
  unfold post_ai_tweet.
  destruct (generate_ai_tweet E self topic) as [t|]; [|apply not_elem_of_nil].
  destruct (create_tweet E 0 t) as [[| |]|];
    try destruct (update_status E 0 t) as [[[|]]|]; simpl;
    intros Hev; repeat (apply elem_of_cons in Hev as [[=]|Hev]);
    by apply not_elem_of_nil in Hev.
Qed.

End RateLimits.

(** C2, as the code has it: in [post_tweet] a rate-limit failure of a
    channel ends the pass through the channels (after a rate-limited rich
    channel the legacy channel is not called in that round) and, while
    retries are left, is followed by the backoff sleep and a new round; in
    [post_ai_tweet] a rate-limit failure of the rich channel is handled like
    any other failure: the legacy channel is called with the same message,
    and the call never sleeps or retries. *)
Theorem rate_limit_handling (E : env) (self : TwitterAgent) :
  (∀ r m s,
     (r, CreateTweet m) ∈ (post_tweet E self).2 →
     create_tweet E r m = Raise (TooManyRequests s) →
     (∀ m', (r, UpdateStatus m') ∉ (post_tweet E self).2)
     ∧ (r < max_retries →
        ∃ m', (S r, Sleep (backoff_time E (S r))) ∈ (post_tweet E self).2
              ∧ (S r, CreateTweet m') ∈ (post_tweet E self).2))
  ∧ (∀ r m s,
       (r, UpdateStatus m) ∈ (post_tweet E self).2 →
       update_status E r m = Raise (TooManyRequests s) →
       r < max_retries →
       ∃ m', (S r, Sleep (backoff_time E (S r))) ∈ (post_tweet E self).2
             ∧ (S r, CreateTweet m') ∈ (post_tweet E self).2)
  ∧ (∀ topic m s,
       generate_ai_tweet E self topic = Ok m →
       create_tweet E 0 m = Raise (TooManyRequests s) →
       (post_ai_tweet E self topic).2 = [(0, CreateTweet m); (0, UpdateStatus m)])
  ∧ (∀ topic r d, (r, Sleep d) ∉ (post_ai_tweet E self topic).2).
Proof.
  split; [apply rich_rate_limit_aborts|].
  split; [apply legacy_rate_limit_retries|].
  split; [|apply post_ai_tweet_no_sleep].
  intros topic m s Hgen Hrl. unfold post_ai_tweet. rewrite Hgen, Hrl.
  by destruct (update_status E 0 m) as [[[|]]|].
Qed.

(** Round 0 of the run over ["A"; "B"] with both channels rate limited. *)
Lemma rate_limit_handling_witness :
  (∀ m', (0, UpdateStatus m') ∉ (post_tweet E_rate_limited agent_AB).2)
  ∧ (0 < max_retries →
     ∃ m', (1, Sleep (backoff_time E_rate_limited 1))
             ∈ (post_tweet E_rate_limited agent_AB).2
           ∧ (1, CreateTweet m') ∈ (post_tweet E_rate_limited agent_AB).2).
Proof.
  assert ((0, CreateTweet "A") ∈ (post_tweet E_rate_limited agent_AB).2) as Hin
    by in_trace.
  exact (proj1 (rate_limit_handling E_rate_limited agent_AB) 0 "A" _ Hin eq_refl).
Defined.

(** C2 fails as stated: with a generated or fallback message and a
    rate-limited rich channel, [post_ai_tweet] goes on to the legacy channel
    with the same message and returns its success, without any backoff. *)
Lemma post_ai_tweet_ignores_rate_limit :
  create_tweet E_rich_rate_limited 0 "A" = Raise rate_limit_error
  ∧ is_rate_limit rate_limit_error = true
  ∧ post_ai_tweet E_rich_rate_limited agent_A None
    = (Posted method2_name "1001" "A", [(0, CreateTweet "A"); (0, UpdateStatus "A")]).
Proof. repeat split. Qed.

(** ** Falling through to the legacy channel *)

Lemma for_retry_exit E corpus rs st r st_r o :
  entry_state E corpus rs st r = Some st_r →
  (body E corpus r st_r).1 = Exit o →
  (for_retry E corpus rs st).1 = o.
Proof.
  revert st. induction rs as [|r0 rs IH]; intros st; [done|]. simpl.
  case_decide as Hr.
  - intros [= <-] Hb. subst r0.
    destruct (body E corpus r st) as [c evs]. simpl in Hb. by subst c.
  - destruct (body E corpus r0 st) as [[st'| |] evs]; simpl; [|done..].
    intros Hent Hb. specialize (IH _ Hent Hb).
    by destruct (for_retry E corpus rs st').
Qed.

Lemma round_exit E self r st_r o :
  round_entry E self r = Some st_r →
  (body E (tweets self) r st_r).1 = Exit o →
  (post_tweet E self).1 = o.
Proof.
  unfold round_entry.
  destruct (random_choice (tweets self) (choice E 0)) as [t0|] eqn:H0; [|done].
  rewrite (post_tweet_run _ _ _ H0). apply for_retry_exit.
Qed.

(** C10: when the rich channel returns normally with a response that is
    falsy or has no [data], the controller does not return; it calls the
    legacy channel with the same message in the same round, and reports the
    success of that second post if it succeeds.  This holds in every round of
    [post_tweet] and in [post_ai_tweet]. *)
Theorem no_data_response_posts_again (E : env) (self : TwitterAgent) :
  (∀ r m,
     (r, CreateTweet m) ∈ (post_tweet E self).2 →
     create_tweet E r m = Ok RespNoData →
     (r, UpdateStatus m) ∈ (post_tweet E self).2
     ∧ ∀ id, update_status E r m = Ok (Status (Some id)) →
             (post_tweet E self).1 = Posted method2_name id m)
  ∧ (∀ topic m,
       generate_ai_tweet E self topic = Ok m →
       create_tweet E 0 m = Ok RespNoData →
       (post_ai_tweet E self topic).2 = [(0, CreateTweet m); (0, UpdateStatus m)]
       ∧ ∀ id, update_status E 0 m = Ok (Status (Some id)) →
               (post_ai_tweet E self topic).1 = Posted method2_name id m).
Proof.
  split.
  - intros r m Hin Hnd.
    destruct (round_posted _ _ _ _ _ Hin eq_refl) as (st_r & st1 & Hent & Hsel & <- & _).
    pose proof (deliver_spec E r st1) as Hd. simpl in Hd. rewrite Hnd in Hd.
    split.
    + apply post_tweet_events. exists st_r. split; [done|].
      rewrite body_selected, Hsel. simpl. apply elem_of_app. right.
      destruct (update_status E r (tweet st1)) as [[[|]]|[]];
        try destruct Hd as (? & Hd & _); rewrite Hd; simpl;
        apply list_elem_of_further, list_elem_of_here.
    + intros id Hok. rewrite Hok in Hd. eapply round_exit; [done|].
      by rewrite body_selected, Hsel, Hd.
  - intros topic m Hgen Hnd. unfold post_ai_tweet. rewrite Hgen, Hnd. split.
    + by destruct (update_status E 0 m) as [[[|]]|].
    + by intros id ->.
Qed.

(** The run over ["A"] whose rich channel returns a response without [data]. *)
Lemma no_data_response_posts_again_witness :
  (0, UpdateStatus "A") ∈ (post_tweet E_no_data agent_A).2
  ∧ ∀ id, update_status E_no_data 0 "A" = Ok (Status (Some id)) →
          (post_tweet E_no_data agent_A).1 = Posted method2_name id "A".
Proof.
  assert ((0, CreateTweet "A") ∈ (post_tweet E_no_data agent_A).2) as Hin
    by in_trace.
  exact (proj1 (no_data_response_posts_again E_no_data agent_A) 0 "A" Hin eq_refl).
Defined.

(** ** When every channel fails *)

(** The test of line 205 reads [e] after the [except] clause that bound it
    has unbound it again: whenever method 2 fails with something else than a
    rate limit, the round raises [UnboundLocalError]. *)
Lemma after_methods_unbound ex st :
  after_methods (except_as ex st) = Exit (Raised unbound_e).
Proof. reflexivity. Qed.

Lemma all_channels_fail_raises (E : env) (self : TwitterAgent) t :
  random_choice (tweets self) (choice E 0) = Ok t →
  (∀ id, create_tweet E 0 t ≠ Ok (RespData id)) →
  (∀ s, create_tweet E 0 t ≠ Raise (TooManyRequests s)) →
  (∀ id, update_status E 0 t ≠ Ok (Status (Some id))) →
  (∀ s, update_status E 0 t ≠ Raise (TooManyRequests s)) →
  post_tweet E self = (Raised unbound_e, [(0, CreateTweet t); (0, UpdateStatus t)]).
Proof.
  intros H0 H1 H2 H3 H4. rewrite (post_tweet_run _ _ _ H0).
  change (seq 0 (max_retries + 1)) with (0 :: seq 1 max_retries).
  pose proof (deliver_spec E 0 (first_locals t)) as Hd. simpl in Hd.
  cbn [for_retry]. unfold body. rewrite decide_False by lia.
  destruct (create_tweet E 0 t) as [[| |]|[]]; try (by edestruct H1); try (by edestruct H2);
    destruct (update_status E 0 t) as [[[|]]|[]];
    try (by edestruct H3); try (by edestruct H4); by rewrite Hd.
Qed.

(** C1 on the code: with the corpus ["A"] and both channels answering with an
    authentication error, [post_tweet] makes the two posts, does not sleep,
    and then leaves with an [UnboundLocalError] instead of reporting the
    failure and returning. *)
Theorem all_channels_failed_escapes :
  create_tweet E_auth 0 "A" = Raise auth_error
  ∧ update_status E_auth 0 "A" = Raise auth_error
  ∧ is_rate_limit auth_error = false
  ∧ post_tweet E_auth agent_A
    = (Raised unbound_e, [(0, CreateTweet "A"); (0, UpdateStatus "A")]).
Proof. repeat split. Qed.

(** ** The length of what is posted *)

Lemma len_append s1 s2 : Str.len (String.append s1 s2) = Str.len s1 + Str.len s2.
Proof. unfold Str.len. induction s1 as [|c s1 IH]; simpl; [done|]. by rewrite IH. Qed.

Lemma len_take n s : Str.len (Str.take n s) = n `min` Str.len s.
Proof.
  unfold Str.len. revert s. induction n as [|n IH]; intros [|c s]; simpl; try done.
  by rewrite IH.
Qed.

Lemma cap_len text : Str.len (cap text) ≤ 280.
Proof.
  unfold cap. case_decide; [|lia].
  rewrite len_append, len_take. change (Str.len "...") with 3. lia.
Qed.

Lemma cap_short text : Str.len text ≤ 280 → cap text = text.
Proof. unfold cap. intros. by rewrite decide_False by lia. Qed.

Lemma cap_long text :
  280 < Str.len text →
  cap text = String.append (Str.take 277 text) "..." ∧ Str.len (cap text) = 280.
Proof.
  unfold cap. intros. rewrite decide_True by done. split; [done|].
  rewrite len_append, len_take. change (Str.len "...") with 3. lia.
Qed.

(** What [generate_ai_tweet] returns is the capped text of the backend or an
    entry of the corpus. *)
Lemma generate_ai_tweet_result E self topic m :
  generate_ai_tweet E self topic = Ok m →
  m ∈ tweets self ∨ ∃ content, m = cap (Str.strip content).
Proof.
  unfold generate_ai_tweet, generate_try.
  destruct (negb _ || negb _); [left; by eapply random_choice_elem|].
  destruct (chat_completion E topic) as [[[|[content|] rest]]|];
    try (left; by eapply random_choice_elem).
  intros [= <-]. eauto.
Qed.

(** With a corpus to fall back on, [generate_ai_tweet] returns a text. *)
Lemma generate_ai_tweet_total E self topic :
  tweets self ≠ [] → ∃ m, generate_ai_tweet E self topic = Ok m.
Proof.
  intros Hne. destruct (random_choice_nonempty _ (choice E 0) Hne) as [t Ht].
  unfold generate_ai_tweet. rewrite Ht.
  destruct (negb _ || negb _); [eauto|].
  destruct (generate_try E topic); eauto.
Qed.

Lemma round_entry_first E self st :
  round_entry E self 0 = Some st → ∃ t0, t0 ∈ tweets self ∧ st = first_locals t0.
Proof.
  intros Hent. pose proof (round_entry_nonempty _ _ _ _ Hent) as Hne.
  destruct (round_entry_0 E self Hne) as (t0 & Hin & _ & H0).
  exists t0. split; [done|]. congruence.
Qed.

Lemma post_tweet_posts_corpus E self r ev m :
  (r, ev) ∈ (post_tweet E self).2 → posted_text ev = Some m → m ∈ tweets self.
Proof.
  intros Hin Hm.
  destruct (round_posted _ _ _ _ _ Hin Hm) as (st_r & st1 & Hent & Hsel & <- & _).
  unfold selected in Hsel. case_decide as Hr.
  - destruct (select_retry_spec (tweets self) (choice E r) st_r)
      as (st' & Hs & Hc & _); [by eapply round_entry_nonempty|]. congruence.
  - assert (r = 0) as -> by lia. injection Hsel as Heq.
    apply round_entry_first in Hent as (t0 & Ht0 & Hst). by subst.
Qed.

Lemma post_ai_tweet_posts E self topic r ev m :
  (r, ev) ∈ (post_ai_tweet E self topic).2 → posted_text ev = Some m →
  generate_ai_tweet E self topic = Ok m.
Proof.
  unfold post_ai_tweet.
  destruct (generate_ai_tweet E self topic) as [t|]; [|by intros ?%not_elem_of_nil].
  intros Hev Hm. f_equal.
  destruct (create_tweet E 0 t) as [[| |]|];
    try destruct (update_status E 0 t) as [[[|]]|]; simpl in Hev;
    repeat (apply elem_of_cons in Hev as [[= _ ->]|Hev]; [simpl in Hm; congruence|]);
    by apply not_elem_of_nil in Hev.
Qed.

(** C3, as the code has it: a text that comes from the generative backend is
    cut to at most 280 characters (its first 277 and ["..."] when it is
    longer); what [post_tweet] hands to a channel is an entry of the corpus,
    unchanged, and what [post_ai_tweet] hands to a channel is such a capped
    text or an entry of the corpus, unchanged.  So every message handed to a
    channel has at most 280 characters when every entry of the corpus has. *)
Theorem posted_length (E : env) (self : TwitterAgent) :
  (∀ text, Str.len (cap text) ≤ 280
           ∧ (280 < Str.len text → cap text = String.append (Str.take 277 text) "..."))
  ∧ (∀ r ev m, (r, ev) ∈ (post_tweet E self).2 → posted_text ev = Some m →
               m ∈ tweets self)
  ∧ (∀ topic r ev m,
       (r, ev) ∈ (post_ai_tweet E self topic).2 → posted_text ev = Some m →
       m ∈ tweets self ∨ ∃ content, m = cap (Str.strip content) ∧ Str.len m ≤ 280)
  ∧ (Forall (λ t, Str.len t ≤ 280) (tweets self) →
     (∀ r ev m, (r, ev) ∈ (post_tweet E self).2 → posted_text ev = Some m →
                Str.len m ≤ 280)
     ∧ (∀ topic r ev m,
          (r, ev) ∈ (post_ai_tweet E self topic).2 → posted_text ev = Some m →
          Str.len m ≤ 280)).
Proof.
  assert (∀ topic r ev m,
       (r, ev) ∈ (post_ai_tweet E self topic).2 → posted_text ev = Some m →
       m ∈ tweets self ∨ ∃ content, m = cap (Str.strip content) ∧ Str.len m ≤ 280)
    as Hai.
  { intros topic r ev m Hin Hm.
    destruct (generate_ai_tweet_result _ _ _ _ (post_ai_tweet_posts _ _ _ _ _ _ Hin Hm))
      as [?|[content ->]]; [by left|right].
    exists content. split; [done|apply cap_len]. }
  split; [|split; [|split]].
  - intros text. split; [apply cap_len|]. intros H. apply (cap_long _ H).
  - apply post_tweet_posts_corpus.
  - exact Hai.
  - intros Hshort. rewrite Forall_forall in Hshort. split.
    + intros r ev m Hin Hm. eapply Hshort, post_tweet_posts_corpus; eauto.
    + intros topic r ev m Hin Hm.
      destruct (Hai _ _ _ _ Hin Hm) as [?|(_ & _ & ?)]; [by apply Hshort|done].
Qed.

(** A corpus of one short tweet and a backend that answers with 300
    characters. *)
Lemma posted_length_witness :
  (∀ r ev m, (r, ev) ∈ (post_tweet E_ai_long (ai_agent_of ["A"])).2 →
             posted_text ev = Some m → Str.len m ≤ 280)
  ∧ (∀ topic r ev m,
       (r, ev) ∈ (post_ai_tweet E_ai_long (ai_agent_of ["A"]) topic).2 →
       posted_text ev = Some m → Str.len m ≤ 280).
Proof.
  apply (posted_length E_ai_long (ai_agent_of ["A"])).
  repeat constructor.
Defined.

(** C3 fails as stated: a corpus entry of 281 characters is handed to the
    rich channel as it is. *)
Lemma long_corpus_entry_posted :
  (0, CreateTweet long_tweet) ∈ (post_tweet E_auth agent_long).2
  ∧ Str.len long_tweet = 281.
Proof. split; [in_trace | reflexivity]. Qed.

(** ** The empty corpus *)

(** C4 on the code: with an empty corpus and no generative client,
    [generate_ai_tweet] reaches [random.choice(self.tweets)], and the
    [IndexError] of that call leaves the method (and [post_ai_tweet] with
    it); the same holds when the client is there and the backend fails. *)
Theorem generate_ai_tweet_raises_on_empty_corpus :
  generate_ai_tweet E_auth agent_empty None
  = Raise (IndexError "Cannot choose from an empty sequence")
  ∧ generate_ai_tweet E_auth (ai_agent_of []) None
    = Raise (IndexError "Cannot choose from an empty sequence")
  ∧ post_ai_tweet E_auth agent_empty None
    = (Raised (IndexError "Cannot choose from an empty sequence"), []).
Proof. repeat split. Qed.

Lemma strip_blank_lines (lines : list string) :
  Forall (λ line, Str.strip line = EmptyString) lines →
  filter (λ line, Is_true (Str.truthy (Str.strip line))) lines = [].
Proof.
  induction 1 as [|line lines Hline _ IH]; [done|].
  rewrite filter_cons_False; [exact IH|].
  cbv beta in *. rewrite Hline. simpl. tauto.
Qed.

(** C9, as the code has it: a corpus file that can be read loads as the
    empty corpus exactly when it has no line that is not blank; the loader
    raises nothing of its own, only what opening or reading the file raised;
    and on an empty corpus [post_tweet] returns at once: it selects nothing,
    sleeps and posts nothing, and raises nothing. *)
Theorem empty_corpus_is_not_fatal :
  (∀ text, _load_tweets (Opens text) = Ok []
           ↔ Forall (λ line, Str.strip line = EmptyString) (file_lines text))
  ∧ (∀ file ex, _load_tweets file = Raise ex →
                file = OpenRaises ex ∨ file = ReadRaises ex)
  ∧ (∀ E self, tweets self = [] → post_tweet E self = (NoTweets, [])).
Proof.
  split; [|split].
  - intros text. unfold _load_tweets. split.
    + intros [= Hnil]. apply fmap_nil_inv in Hnil.
      apply Forall_forall. intros line Hin.
      destruct (Str.strip line) eqn:Hs; [done|].
      assert (line ∈ filter (λ line, Is_true (Str.truthy (Str.strip line)))
                       (file_lines text)) as Hf.
      { apply list_elem_of_filter. split; [|done]. by rewrite Hs. }
      rewrite Hnil in Hf. by apply elem_of_nil in Hf.
    + intros H. by rewrite strip_blank_lines.
  - intros [ex'|ex'|text] ex; simpl; [intros [= ->]; eauto..|done].
  - intros E self. apply post_tweet_empty.
Qed.

(** A file of two blank lines, and a run on the empty corpus. *)
Lemma empty_corpus_is_not_fatal_witness :
  _load_tweets (Opens blank_text) = Ok []
  ∧ post_tweet E_auth agent_empty = (NoTweets, []).
Proof.
  split.
  - apply (proj1 empty_corpus_is_not_fatal). by repeat constructor.
  - by apply (proj2 (proj2 empty_corpus_is_not_fatal)).
Defined.

(** C9 fails as stated: a corpus file with blank lines only loads without
    an error, [__init__] returns an agent whose corpus is empty, and the
    posting cycle runs against the empty corpus and returns normally. *)
Lemma empty_corpus_loads_and_runs :
  file_lines blank_text = [newline; String.append "   " newline]
  ∧ _load_tweets (Opens blank_text) = Ok []
  ∧ (∀ ex, _load_tweets (Opens blank_text) ≠ Raise ex)
  ∧ (∃ a, __init__ P_digits ∅ full_environ (Opens blank_text) = InitOk a
          ∧ tweets (base a) = [])
  ∧ post_tweet E_auth (agent_of []) = (NoTweets, []).
Proof.
  split; [reflexivity|]. split; [reflexivity|]. split; [done|].
  split; [|reflexivity]. eexists. split; [by vm_compute|reflexivity].
Qed.

(** ** The used set *)

Lemma succ_mod r d :
  0 < d → S r `mod` d = if decide (r `mod` d + 1 = d) then 0 else r `mod` d + 1.
Proof.
  intros Hd. pose proof (Nat.div_mod_eq r d) as Hr.
  pose proof (Nat.mod_upper_bound r d) as Hlt.
  case_decide as Hc; symmetry.
  - apply (Nat.mod_unique _ _ (r `div` d + 1)); lia.
  - apply (Nat.mod_unique _ _ (r `div` d)); lia.
Qed.

Section UsedSet.
Context (corpus : list string).

Lemma covers_subseteq (used : gset string) :
  covers used corpus ↔ list_to_set corpus ⊆ used.
Proof.
  unfold covers. split.
  - intros H t Ht%elem_of_list_to_set. by apply H.
  - intros H t Ht. by apply H, elem_of_list_to_set.
Qed.

Lemma used_inv_covers r st :
  used_inv corpus r st →
  0 < distinct corpus
  ∧ (covers (used_tweets st) corpus ↔ S r `mod` distinct corpus = 0).
Proof.
  intros (Hin & Hsub & Hsize).
  assert (0 < distinct corpus) as Hd.
  { apply subseteq_size in Hsub. unfold distinct. lia. }
  split; [done|]. rewrite succ_mod by done. rewrite covers_subseteq.
  pose proof (Nat.mod_upper_bound r (distinct corpus)).
  case_decide as Hc; split; try lia.
  - intros _. enough (used_tweets st = list_to_set corpus) as -> by done.
    apply set_subseteq_size_eq; [done|]. fold (distinct corpus). lia.
  - intros Hcov. apply subseteq_size in Hcov. fold (distinct corpus) in Hcov. lia.
Qed.

Lemma used_inv_first t : t ∈ corpus → used_inv corpus 0 (first_locals t).
Proof.
  intros Ht. unfold used_inv, first_locals. cbn [tweet used_tweets].
  rewrite (right_id_L ∅ (∪)). split; [by apply elem_of_singleton|]. split.
  - intros x ->%elem_of_singleton. by apply elem_of_list_to_set.
  - by rewrite Nat.Div0.mod_0_l, size_singleton.
Qed.

Lemma used_inv_select r draw st st' :
  used_inv corpus r st → select_retry corpus draw st = Ok st' →
  used_inv corpus (S r) st'
  ∧ (S r `mod` distinct corpus ≠ 0 → tweet st' ∉ used_tweets st).
Proof.
  intros Hinv Hsel.
  destruct (used_inv_covers _ _ Hinv) as [Hd Hcov].
  destruct Hinv as (Hin & Hsub & Hsize).
  assert (corpus ≠ []) as Hne.
  { intros ->. unfold distinct in Hd. rewrite list_to_set_nil, size_empty in Hd. lia. }
  destruct (select_retry_spec corpus draw st Hne)
    as (st2 & Hsel2 & Hc & _ & _ & Hreset & Hfresh).
  rewrite Hsel in Hsel2. injection Hsel2 as <-.
  assert (tweet st' ∈ (list_to_set corpus : gset string)) as HinT
    by (by apply elem_of_list_to_set).
  unfold used_inv.
  destruct (decide (S r `mod` distinct corpus = 0)) as [H0|Hn0];
    [pose proof (proj2 Hcov H0) as Hcv
    |assert (¬ covers (used_tweets st) corpus) as Hncv by (by rewrite Hcov)];
    rewrite succ_mod in * by done.
  - rewrite (Hreset Hcv), (right_id_L ∅ (∪)), size_singleton.
    split; [|case_decide; lia].
    split; [by apply elem_of_singleton|].
    split; [by apply singleton_subseteq_l|]. case_decide; lia.
  - destruct (Hfresh Hncv) as [Hnew Hused]. split; [|done].
    rewrite Hused. split; [by apply elem_of_union_l, elem_of_singleton|].
    split; [apply union_subseteq; split; [by apply singleton_subseteq_l|done]|].
    rewrite size_union by (by apply disjoint_singleton_l).
    rewrite size_singleton, Hsize. case_decide; lia.
Qed.

End UsedSet.

Section UsedSetOfRun.
Context (E : env) (self : TwitterAgent).

(** A retry round is entered with the tweet and the used set of the round
    before it. *)
Lemma round_entry_inv r st :
  round_entry E self (S r) = Some st → used_inv (tweets self) r st.
Proof.
  revert st. induction r as [|r IH]; intros st Hent;
    apply round_entry_succ in Hent as (st_r & Hent & Hb);
    rewrite body_selected in Hb; unfold selected in Hb.
  - rewrite decide_False in Hb by lia. simpl in Hb.
    apply deliver_continue in Hb as [Ht Hu].
    apply round_entry_first in Hent as (t0 & Ht0 & ->).
    destruct (used_inv_first (tweets self) t0 Ht0) as (H1 & H2 & H3).
    unfold used_inv. rewrite Ht, Hu. done.
  - rewrite decide_True in Hb by lia.
    destruct (select_retry (tweets self) (choice E (S r)) st_r) as [st1|] eqn:Hsel;
      [|done].
    simpl in Hb. apply deliver_continue in Hb as [Ht Hu].
    destruct (used_inv_select _ _ _ _ _ (IH _ Hent) Hsel) as [(H1 & H2 & H3) _].
    unfold used_inv. rewrite Ht, Hu. done.
Qed.

(** The tweet with which a retry round is entered is the one that the
    round before it posted. *)
Lemma round_entry_tweet r a st :
  (r, CreateTweet a) ∈ (post_tweet E self).2 →
  round_entry E self (S r) = Some st → tweet st = a.
Proof.
  intros Hin Hent.
  destruct (round_posted _ _ _ _ _ Hin eq_refl) as (st_r & st1 & Hent_r & Hsel & <- & _).
  apply round_entry_succ in Hent as (st_r' & Hent_r' & Hb).
  rewrite Hent_r in Hent_r'. injection Hent_r' as <-.
  rewrite body_selected, Hsel in Hb. simpl in Hb.
  by apply deliver_continue in Hb as [Ht _].
Qed.

End UsedSetOfRun.

(** C6: every retry round [r >= 1] of a run of [post_tweet] selects a tweet
    of the corpus and posts it; the tweet is not in the used set with which
    the round was entered, unless that set covers the whole corpus, and then
    the set is emptied first, so that the selection always finds a tweet; in
    both cases the tweet is added to the used set. *)
Theorem used_set_invariant (E : env) (self : TwitterAgent) (r : nat) (st : locals) :
  1 ≤ r → round_entry E self r = Some st →
  ∃ st', select_retry (tweets self) (choice E r) st = Ok st'
    ∧ (r, CreateTweet (tweet st')) ∈ (post_tweet E self).2
    ∧ tweet st' ∈ tweets self
    ∧ (¬ covers (used_tweets st) (tweets self) →
         (tweet st' ∉ used_tweets st)
         ∧ used_tweets st' = {[tweet st']} ∪ used_tweets st)
    ∧ (covers (used_tweets st) (tweets self) →
         used_tweets st' = {[tweet st']} ∪ ∅)
    ∧ tweet st' ∈ used_tweets st'.
Proof.
  intros Hr Hent.
  destruct (select_retry_spec (tweets self) (choice E r) st)
    as (st' & Hsel & Hc & _ & _ & Hreset & Hfresh); [by eapply round_entry_nonempty|].
  exists st'. split; [done|]. split.
  { eapply round_create; [done|]. unfold selected. by rewrite decide_True by lia. }
  split; [done|]. split; [done|]. split; [done|].
  destruct r as [|r]; [lia|].
  apply round_entry_inv in Hent.
  by destruct (used_inv_select _ _ _ _ _ Hent Hsel) as [(? & _) _].
Qed.

(** Round 1 of the run over ["A"; "B"] with both channels rate limited. *)
Lemma used_set_invariant_witness :
  ∃ st st', round_entry E_rate_limited agent_AB 1 = Some st
    ∧ select_retry (tweets agent_AB) (choice E_rate_limited 1) st = Ok st'
    ∧ (1, CreateTweet (tweet st')) ∈ (post_tweet E_rate_limited agent_AB).2
    ∧ tweet st' ∈ used_tweets st'.
Proof.
  eexists.
  destruct (used_set_invariant E_rate_limited agent_AB 1 _ (le_n 1) eq_refl)
    as (st' & Hsel & Hin & _ & _ & _ & Hused).
  exists st'. split; [reflexivity|]. split; [exact Hsel|]. split; [exact Hin|].
  exact Hused.
Defined.

(** C5, as the code has it: in a run over a corpus with [d] distinct
    entries ([d >= 2] included), the tweet of a retry round differs from the
    tweet of the round before it, except in the rounds whose number is a
    multiple of [d]; those are exactly the rounds entered with a used set
    that covers the corpus, where the set is emptied and every entry can be
    selected, the one of the round before included. *)
Theorem no_repeat_before_reset (E : env) (self : TwitterAgent) :
  (∀ r a b,
     (r, CreateTweet a) ∈ (post_tweet E self).2 →
     (S r, CreateTweet b) ∈ (post_tweet E self).2 →
     S r `mod` distinct (tweets self) ≠ 0 → a ≠ b)
  ∧ (∀ r st, round_entry E self (S r) = Some st →
       (covers (used_tweets st) (tweets self) ↔ S r `mod` distinct (tweets self) = 0)).
Proof.
  split.
  - intros r a b Ha Hb Hmod.
    destruct (round_posted _ _ _ _ _ Hb eq_refl) as (st & st1 & Hent & Hsel & <- & _).
    pose proof (round_entry_tweet _ _ _ _ _ Ha Hent) as <-.
    pose proof (round_entry_inv _ _ _ _ Hent) as Hinv.
    unfold selected in Hsel. rewrite decide_True in Hsel by lia.
    destruct (used_inv_select _ _ _ _ _ Hinv Hsel) as [_ Hnew].
    destruct Hinv as (Hin & _). intros Heq. apply (Hnew Hmod). by rewrite <- Heq.
  - intros r st Hent.
    exact (proj2 (used_inv_covers _ _ _ (round_entry_inv E self _ _ Hent))).
Qed.

(** Rounds 0 and 1 of the run over ["A"; "B"] with both channels rate
    limited. *)
Lemma no_repeat_before_reset_witness :
  (0, CreateTweet "A") ∈ (post_tweet E_rate_limited agent_AB).2
  ∧ (1, CreateTweet "B") ∈ (post_tweet E_rate_limited agent_AB).2
  ∧ 1 `mod` distinct (tweets agent_AB) ≠ 0
  ∧ "A" ≠ "B".
Proof.
  assert ((0, CreateTweet "A") ∈ (post_tweet E_rate_limited agent_AB).2) as Ha
    by in_trace.
  assert ((1, CreateTweet "B") ∈ (post_tweet E_rate_limited agent_AB).2) as Hb
    by in_trace.
  assert (1 `mod` distinct (tweets agent_AB) ≠ 0) as Hmod by (vm_compute; lia).
  split; [exact Ha|]. split; [exact Hb|]. split; [exact Hmod|].
  exact (proj1 (no_repeat_before_reset E_rate_limited agent_AB) 0 "A" "B" Ha Hb Hmod).
Defined.

(** C5 fails as stated: over the corpus ["A"; "B"], rounds 1 and 2 of a run
    post the same tweet; round 2 is entered with both tweets used, and its
    draw from the whole corpus is the tweet of round 1 again. *)
Lemma same_tweet_after_reset :
  distinct (tweets agent_AB) = 2
  ∧ (1, CreateTweet "B") ∈ (post_tweet E_rate_limited agent_AB).2
  ∧ (2, CreateTweet "B") ∈ (post_tweet E_rate_limited agent_AB).2.
Proof. split; [by vm_compute|]. split; in_trace. Qed.

(** ** What [strip] leaves *)

Lemma lstrip_first s : space_at (first_char (Str.lstrip s)) = false.
Proof.
  induction s as [|c s IH]; simpl; [done|].
  destruct (Str.is_space c) eqn:Hc; [done|]. simpl. exact Hc.
Qed.

Lemma rstrip_first s :
  space_at (first_char s) = false → space_at (first_char (Str.rstrip s)) = false.
Proof.
  destruct s as [|c s]; [done|]. simpl. intros Hc.
  destruct (Str.rstrip s); [rewrite Hc|]; done.
Qed.

Lemma rstrip_last s : space_at (last_char (Str.rstrip s)) = false.
Proof.
  induction s as [|c s IH]; [done|]. simpl.
  destruct (Str.rstrip s) as [|c' r] eqn:Hr.
  - destruct (Str.is_space c) eqn:Hc; simpl; [done|exact Hc].
  - exact IH.
Qed.

Lemma lstrip_id s : space_at (first_char s) = false → Str.lstrip s = s.
Proof. destruct s as [|c s]; simpl; [done|]. by intros ->. Qed.

Lemma rstrip_id s : space_at (last_char s) = false → Str.rstrip s = s.
Proof.
  induction s as [|c s IH]; [done|]. simpl.
  destruct s as [|c' s'].
  - simpl. by intros ->.
  - intros H. by rewrite (IH H).
Qed.

Lemma rstrip_blank s : blank s = true → Str.rstrip s = EmptyString.
Proof.
  induction s as [|c s IH]; [done|]. simpl.
  intros [Hc Hs]%andb_prop. by rewrite (IH Hs), Hc.
Qed.

Lemma lstrip_blank s : blank s = true → Str.lstrip s = EmptyString.
Proof.
  induction s as [|c s IH]; [done|]. simpl.
  intros [Hc Hs]%andb_prop. by rewrite Hc, (IH Hs).
Qed.

Lemma lstrip_not_blank s :
  Str.lstrip s = EmptyString → blank s = true.
Proof.
  induction s as [|c s IH]; [done|]. simpl.
  destruct (Str.is_space c); [exact IH|done].
Qed.

Lemma rstrip_app_blank s w :
  blank w = true → Str.rstrip (String.append s w) = Str.rstrip s.
Proof.
  intros Hw. induction s as [|c s IH]; simpl.
  - by apply rstrip_blank.
  - by rewrite IH.
Qed.

Lemma strip_blank s : blank s = true ↔ Str.strip s = EmptyString.
Proof.
  unfold Str.strip. split.
  - intros H. by rewrite (lstrip_blank _ H).
  - intros H. apply lstrip_not_blank.
    pose proof (lstrip_first s) as Hf.
    destruct (Str.lstrip s) as [|c r] eqn:Hl; [done|].
    exfalso. simpl in H, Hf.
    destruct (Str.rstrip r); [by rewrite Hf in H|done].
Qed.

Lemma strip_clean s : Str.strip s ≠ EmptyString → clean (Str.strip s).
Proof.
  intros Hne. split; [done|]. unfold Str.strip. split.
  - apply rstrip_first, lstrip_first.
  - apply rstrip_last.
Qed.

Lemma clean_strip t : clean t → Str.strip t = t.
Proof.
  intros (_ & Hf & Hl). unfold Str.strip. by rewrite lstrip_id, rstrip_id.
Qed.

Lemma strip_idempotent s : Str.strip (Str.strip s) = Str.strip s.
Proof.
  destruct (Str.strip s) as [|c r] eqn:Hs; [done|]. rewrite <- Hs.
  apply clean_strip, strip_clean. by rewrite Hs.
Qed.

Lemma len_lstrip s : Str.len (Str.lstrip s) ≤ Str.len s.
Proof.
  unfold Str.len. induction s as [|c s IH]; simpl; [done|].
  destruct (Str.is_space c); simpl; lia.
Qed.

Lemma len_rstrip s : Str.len (Str.rstrip s) ≤ Str.len s.
Proof.
  unfold Str.len. induction s as [|c s IH]; simpl; [done|].
  destruct (Str.rstrip s); [destruct (Str.is_space c)|]; simpl in *; lia.
Qed.

(** [strip] is idempotent and never lengthens; its result is empty exactly
    when every character is a space, and has no space at either end. *)
Lemma strip_properties (s : string) :
  Str.strip (Str.strip s) = Str.strip s
  ∧ Str.len (Str.strip s) ≤ Str.len s
  ∧ (Str.strip s = EmptyString ↔ blank s = true)
  ∧ space_at (first_char (Str.strip s)) = false
  ∧ space_at (last_char (Str.strip s)) = false.
Proof.
  split; [apply strip_idempotent|]. split.
  { unfold Str.strip. etrans; [apply len_rstrip|apply len_lstrip]. }
  split; [symmetry; apply strip_blank|]. unfold Str.strip. split.
  - apply rstrip_first, lstrip_first.
  - apply rstrip_last.
Qed.

Lemma lstrip_app_blank w s :
  blank w = true → Str.lstrip (String.append w s) = Str.lstrip s.
Proof.
  induction w as [|c w IH]; [done|]. simpl.
  intros [Hc Hw]%andb_prop. rewrite Hc. by apply IH.
Qed.

Lemma lstrip_app_clean s w :
  s ≠ EmptyString → space_at (first_char s) = false →
  Str.lstrip (String.append s w) = String.append s w.
Proof. destruct s as [|c s]; [done|]. simpl. by intros _ ->. Qed.

(** Spaces around a clean tweet are what [strip] removes. *)
Lemma strip_padded w1 t w2 :
  blank w1 = true → blank w2 = true → clean t →
  Str.strip (String.append w1 (String.append t w2)) = t.
Proof.
  intros H1 H2 (Hne & Hf & Hl). unfold Str.strip.
  rewrite lstrip_app_blank by done. rewrite lstrip_app_clean by done.
  rewrite rstrip_app_blank by done. by apply rstrip_id.
Qed.

(** ** [_load_tweets] *)

Lemma truthy_nonempty s : Is_true (Str.truthy s) ↔ s ≠ EmptyString.
Proof. destruct s; simpl; naive_solver. Qed.

Lemma corpus_of_clean lines : Forall clean (corpus_of lines).
Proof.
  unfold corpus_of. apply Forall_fmap, Forall_forall.
  intros line [Hne _]%list_elem_of_filter. apply strip_clean.
  by apply truthy_nonempty.
Qed.

Lemma corpus_of_clean_lines ts : Forall clean ts → corpus_of ts = ts.
Proof.
  unfold corpus_of. induction 1 as [|t ts Ht _ IH]; [done|].
  rewrite filter_cons_True.
  - rewrite fmap_cons, IH. f_equal. by apply clean_strip.
  - cbv beta. rewrite (clean_strip _ Ht). apply truthy_nonempty, Ht.
Qed.

Lemma corpus_of_app l1 l2 : corpus_of (l1 ++ l2) = corpus_of l1 ++ corpus_of l2.
Proof. unfold corpus_of. by rewrite filter_app, fmap_app. Qed.

Lemma corpus_of_blank lines : Forall (λ line, blank line = true) lines → corpus_of lines = [].
Proof.
  intros H. unfold corpus_of. rewrite strip_blank_lines; [done|].
  eapply Forall_impl; [exact H|]. intros line Hb. by apply strip_blank.
Qed.

Lemma load_tweets_opens text : _load_tweets (Opens text) = Ok (corpus_of (file_lines text)).
Proof. reflexivity. Qed.

(** *** The lines of a text *)

Lemma append_cons c s1 s2 :
  String.append (String c s1) s2 = String c (String.append s1 s2).
Proof. reflexivity. Qed.

Lemma append_assoc s1 s2 s3 :
  String.append (String.append s1 s2) s3 = String.append s1 (String.append s2 s3).
Proof. induction s1 as [|c s1 IH]; [done|]. by rewrite !append_cons, IH. Qed.

Lemma has_break_app s1 s2 :
  has_break (String.append s1 s2) = has_break s1 || has_break s2.
Proof.
  induction s1 as [|c s1 IH]; [done|]. rewrite append_cons. cbn [has_break].
  rewrite IH. by destruct (Ascii.eqb c LF), (Ascii.eqb c CR).
Qed.

Lemma has_break_lstrip s : has_break s = false → has_break (Str.lstrip s) = false.
Proof.
  induction s as [|c s IH]; simpl; [done|].
  intros [Hc Hs]%orb_false_elim. destruct (Str.is_space c); [by apply IH|].
  simpl. by rewrite Hc, Hs.
Qed.

Lemma has_break_rstrip s : has_break s = false → has_break (Str.rstrip s) = false.
Proof.
  induction s as [|c s IH]; simpl; [done|].
  intros [Hc Hs]%orb_false_elim. specialize (IH Hs).
  destruct (Str.rstrip s) as [|c' r].
  - destruct (Str.is_space c); simpl; [done|]. by rewrite Hc.
  - cbn [has_break] in *. by rewrite Hc, IH.
Qed.

Lemma has_break_strip s : has_break s = false → has_break (Str.strip s) = false.
Proof. intros H. by apply has_break_rstrip, has_break_lstrip. Qed.

Lemma strip_app_blank s w :
  blank w = true → Str.strip (String.append s w) = Str.strip s.
Proof.
  intros Hw. unfold Str.strip. induction s as [|c s IH].
  - change (String.append EmptyString w) with w. by rewrite (lstrip_blank _ Hw).
  - rewrite append_cons. cbn [Str.lstrip]. destruct (Str.is_space c); [exact IH|].
    rewrite <- append_cons. by apply rstrip_app_blank.
Qed.

Lemma lines_from_nonempty c text : lines_from false (String c text) ≠ [].
Proof.
  simpl. destruct (Ascii.eqb c LF); [done|]. destruct (Ascii.eqb c CR); [done|].
  by destruct (lines_from false text).
Qed.

(** Each line is a text without a line break, with a line feed after it or,
    for the last line, without. *)
Lemma lines_from_shape b text :
  Forall (λ line, ∃ content, has_break content = false
                   ∧ (line = String.append content newline ∨ line = content))
    (lines_from b text).
Proof.
  revert b. induction text as [|c text IH]; intros b; simpl; [constructor|].
  destruct (Ascii.eqb c LF) eqn:Hlf.
  { destruct b; [apply IH|]. constructor; [|apply IH]. exists EmptyString. eauto. }
  destruct (Ascii.eqb c CR) eqn:Hcr.
  { constructor; [|apply IH]. exists EmptyString. eauto. }
  specialize (IH false). destruct (lines_from false text) as [|line lines].
  - constructor; [|constructor]. exists (String c EmptyString). simpl.
    rewrite Hlf, Hcr. eauto.
  - apply Forall_cons in IH as [(content & Hb & Hl) IH]. constructor; [|done].
    exists (String c content). simpl. rewrite Hlf, Hcr, Hb.
    split; [done|]. destruct Hl as [-> | ->]; eauto.
Qed.

Lemma strip_line_no_break text line :
  line ∈ file_lines text → has_break (Str.strip line) = false.
Proof.
  intros Hin. pose proof (lines_from_shape false text) as Hs.
  rewrite Forall_forall in Hs. destruct (Hs line Hin) as (content & Hb & [-> | ->]).
  - rewrite strip_app_blank by done. by apply has_break_strip.
  - by apply has_break_strip.
Qed.

(** A text that ends with a line feed ends a line: what follows it starts a
    new one. *)
Lemma lines_from_app b text1 text2 :
  last_char text1 = Some LF →
  lines_from b (String.append text1 text2)
  = lines_from b text1 ++ lines_from false text2.
Proof.
  revert b. induction text1 as [|c text1 IH]; intros b; [done|].
  destruct text1 as [|c' text1'].
  - simpl. intros [= ->]. simpl. by destruct b.
  - intros Hl. assert (last_char (String c' text1') = Some LF) as Hl' by exact Hl.
    assert (∀ b', lines_from b' (String.append (String c' text1') text2)
                  = lines_from b' (String c' text1') ++ lines_from false text2) as IH'
      by (intros b'; by apply IH).
    clear IH. rewrite (append_cons c).
    remember (String c' text1') as t1 eqn:Ht1.
    cbn [lines_from]. rewrite !IH'. subst t1.
    destruct (Ascii.eqb c LF); [by destruct b|].
    destruct (Ascii.eqb c CR); [done|].
    pose proof (lines_from_nonempty c' text1') as Hne.
    by destruct (lines_from false (String c' text1')).
Qed.

Lemma file_lines_app text1 text2 :
  text1 = EmptyString ∨ last_char text1 = Some LF →
  file_lines (String.append text1 text2) = file_lines text1 ++ file_lines text2.
Proof. intros [-> | Hl]; [done|]. by apply lines_from_app. Qed.

(** A line without a line break in it, written with its line feed, is read
    as it was written. *)
Lemma lines_from_line content rest :
  has_break content = false →
  lines_from false (String.append content (String.append newline rest))
  = String.append content newline :: lines_from false rest.
Proof.
  induction content as [|c content IH]; [done|]. rewrite !append_cons.
  cbn [has_break lines_from].
  intros [[Hlf Hcr]%orb_false_elim Hb]%orb_false_elim.
  by rewrite Hlf, Hcr, (IH Hb).
Qed.

Lemma last_char_app_newline s : last_char (String.append s newline) = Some LF.
Proof.
  induction s as [|c s IH]; [done|].
  change (String.append (String c s) newline) with (String c (String.append s newline)).
  destruct (String.append s newline) eqn:Hs; [by destruct s|]. exact IH.
Qed.

Lemma blank_app s1 s2 : blank (String.append s1 s2) = blank s1 && blank s2.
Proof.
  induction s1 as [|c s1 IH]; [done|]. rewrite append_cons. cbn [blank].
  by rewrite IH, andb_assoc.
Qed.

Lemma lines_from_blank b text :
  blank text = true → Forall (λ line, blank line = true) (lines_from b text).
Proof.
  revert b. induction text as [|c text IH]; intros b; simpl; [constructor|].
  intros [Hc Hb]%andb_prop.
  destruct (Ascii.eqb c LF).
  { destruct b; [by apply IH|]. constructor; [done|by apply IH]. }
  destruct (Ascii.eqb c CR); [constructor; [done|by apply IH]|].
  specialize (IH false Hb). destruct (lines_from false text) as [|line lines].
  - constructor; [|constructor]. simpl. by rewrite Hc.
  - apply Forall_cons in IH as [Hl IH]. constructor; [|done]. simpl. by rewrite Hc, Hl.
Qed.

(** The lines of tweets written one per line, each with blanks around it. *)
Lemma file_lines_written (before after : string → string) ts :
  Forall (λ t, has_break t = false) ts →
  (∀ t, has_break (before t) = false ∧ has_break (after t) = false) →
  file_lines
    (concat ((λ t, String.append (before t)
                     (String.append t (String.append (after t) newline))) <$> ts))
  = (λ t, String.append (before t) (String.append t (String.append (after t) newline)))
      <$> ts.
Proof.
  intros Hts Hpad. unfold file_lines. induction Hts as [|t ts Ht _ IH]; [done|].
  rewrite !fmap_cons. cbn [concat foldr]. fold (concat
    ((λ t, String.append (before t)
             (String.append t (String.append (after t) newline))) <$> ts)).
  destruct (Hpad t) as [Hb Ha].
  rewrite <- (append_assoc t), <- (append_assoc (before t)).
  rewrite append_assoc with (s2 := newline).
  rewrite lines_from_line, IH.
  - reflexivity.
  - by rewrite !has_break_app, Hb, Ht, Ha.
Qed.

Lemma corpus_of_written (before after : string → string) ts :
  Forall clean ts →
  (∀ t, blank (before t) = true ∧ blank (after t) = true) →
  corpus_of ((λ t, String.append (before t)
                     (String.append t (String.append (after t) newline))) <$> ts)
  = ts.
Proof.
  intros Hts Hpad. unfold corpus_of.
  induction Hts as [|t ts Ht _ IH]; [done|].
  destruct (Hpad t) as [Hb Ha]. rewrite fmap_cons.
  assert (blank (String.append (after t) newline) = true) as Ha'
    by (by rewrite blank_app, Ha).
  pose proof (strip_padded _ _ _ Hb Ha' Ht) as Hs.
  rewrite filter_cons_True.
  - rewrite fmap_cons, IH. by rewrite Hs.
  - cbv beta. rewrite Hs. apply truthy_nonempty, Ht.
Qed.

Lemma append_empty_r s : String.append s EmptyString = s.
Proof. induction s as [|c s IH]; [done|]. by rewrite append_cons, IH. Qed.

Lemma load_written ts :
  Forall clean ts → Forall (λ t, has_break t = false) ts →
  _load_tweets (Opens (concat ((λ t, String.append t newline) <$> ts))) = Ok ts.
Proof.
  intros Hc Hb. rewrite load_tweets_opens. f_equal.
  pose proof (file_lines_written (λ _, EmptyString) (λ _, EmptyString) ts Hb
                ltac:(done)) as Hl.
  pose proof (corpus_of_written (λ _, EmptyString) (λ _, EmptyString) ts Hc
                ltac:(done)) as Hco.
  etrans; [|exact Hco]. f_equal. exact Hl.
Qed.

(** X1: what [_load_tweets] returns.  An exception of [open] or of a read
    is raised on as it is.  A file that is read to its end loads: the tweets
    of its corpus are the stripped forms of its lines, those that are not
    empty and no others, in the order of the lines; each has no space at
    either end and no line break in it; the corpus has at most as many tweets
    as the file has lines; and the corpus written back, one tweet per line,
    loads as itself. *)
Theorem load_tweets_clean (file : file_state) :
  match file with
  | OpenRaises ex | ReadRaises ex => _load_tweets file = Raise ex
  | Opens text =>
      ∃ corpus, _load_tweets file = Ok corpus
        ∧ (∀ t, t ∈ corpus
                ↔ t ≠ EmptyString ∧ ∃ line, line ∈ file_lines text ∧ t = Str.strip line)
        ∧ corpus `sublist_of` (Str.strip <$> file_lines text)
        ∧ Forall clean corpus
        ∧ Forall (λ t, has_break t = false) corpus
        ∧ length corpus ≤ length (file_lines text)
        ∧ _load_tweets (Opens (concat ((λ t, String.append t newline) <$> corpus)))
          = Ok corpus
  end.
Proof.
  destruct file as [ex|ex|text]; [reflexivity..|].
  exists (corpus_of (file_lines text)). split; [reflexivity|].
  assert (Forall (λ t, has_break t = false) (corpus_of (file_lines text))) as Hbreak.
  { unfold corpus_of. apply Forall_fmap, Forall_forall.
    intros line [_ Hin]%list_elem_of_filter. by apply (strip_line_no_break text). }
  split; [|split; [|split; [|split; [|split]]]].
  - intros t. unfold corpus_of. rewrite list_elem_of_fmap. split.
    + intros (line & -> & [Hne Hin]%list_elem_of_filter). split; [|eauto].
      by apply truthy_nonempty.
    + intros (Hne & line & Hin & ->). exists line. split; [done|].
      apply list_elem_of_filter. split; [|done]. by apply truthy_nonempty.
  - unfold corpus_of. apply fmap_sublist, sublist_filter.
  - apply corpus_of_clean.
  - exact Hbreak.
  - unfold corpus_of. rewrite length_fmap. apply length_filter.
  - apply load_written; [apply corpus_of_clean|exact Hbreak].
Qed.

(** X2: the texts of files are loaded line by line: when a text ends with
    a line feed (or is empty), the corpus of that text followed by another is
    the corpus of the first followed by that of the second, and a blank line
    put between the two adds nothing. *)
Theorem load_tweets_app (text1 text2 : string) :
  text1 = EmptyString ∨ last_char text1 = Some LF →
  (∃ c1 c2, _load_tweets (Opens text1) = Ok c1 ∧ _load_tweets (Opens text2) = Ok c2
            ∧ _load_tweets (Opens (String.append text1 text2)) = Ok (c1 ++ c2))
  ∧ (∀ pad, blank pad = true →
       _load_tweets
         (Opens (String.append text1 (String.append (String.append pad newline) text2)))
       = _load_tweets (Opens (String.append text1 text2))).
Proof.
  intros Hend. split.
  - exists (corpus_of (file_lines text1)), (corpus_of (file_lines text2)).
    repeat split. by rewrite load_tweets_opens, file_lines_app, corpus_of_app.
  - intros pad Hpad. rewrite !load_tweets_opens. f_equal.
    rewrite (file_lines_app text1 text2 Hend).
    rewrite (file_lines_app text1 _ Hend).
    rewrite (file_lines_app (String.append pad newline) text2)
      by (right; apply last_char_app_newline).
    rewrite !corpus_of_app.
    rewrite (corpus_of_blank (file_lines (String.append pad newline))); [done|].
    apply lines_from_blank. by rewrite blank_app, Hpad.
Qed.

Lemma load_tweets_app_witness :
  _load_tweets
    (Opens (String.append (String.append "A" newline)
              (String.append (String.append "  " newline) "B")))
  = _load_tweets (Opens (String.append (String.append "A" newline) "B")).
Proof.
  apply (proj2 (load_tweets_app (String.append "A" newline) "B" ltac:(by right)) "  ").
  reflexivity.
Defined.

(** Without the line feed at the end of the first text, its last line and
    the first line of the second text are one line, and one tweet. *)
Lemma unterminated_line_joins :
  _load_tweets (Opens "A") = Ok ["A"]
  ∧ _load_tweets (Opens (String.append "B" newline)) = Ok ["B"]
  ∧ _load_tweets (Opens (String.append "A" (String.append "B" newline))) = Ok ["AB"].
Proof. repeat split. Qed.

(** X3: tweets written one per line load as they were written: when each
    tweet is not empty, has no space at either end and no line break in it, a
    file that holds the tweets in order, each with any indentation before it
    and any spaces and a line feed after it, loads as exactly these tweets,
    in order. *)
Theorem load_tweets_round_trip (ts : list string) (before after : string → string) :
  Forall clean ts →
  Forall (λ t, has_break t = false) ts →
  (∀ t, blank (before t) = true ∧ has_break (before t) = false
        ∧ blank (after t) = true ∧ has_break (after t) = false) →
  _load_tweets
    (Opens (concat ((λ t, String.append (before t)
                            (String.append t (String.append (after t) newline)))
                      <$> ts)))
  = Ok ts.
Proof.
  intros Hts Hbr Hpad. rewrite load_tweets_opens. f_equal.
  rewrite file_lines_written; [|done|intros t; by destruct (Hpad t) as (_ & ? & _ & ?)].
  apply corpus_of_written; [done|]. intros t. by destruct (Hpad t) as (? & _ & ? & _).
Qed.

Lemma load_tweets_round_trip_witness :
  _load_tweets
    (Opens (concat ((λ t, String.append "  " (String.append t (String.append " " newline)))
                      <$> ["A b"; "C"])))
  = Ok ["A b"; "C"].
Proof.
  apply (load_tweets_round_trip ["A b"; "C"] (λ _, "  ") (λ _, " ")).
  - repeat constructor; done.
  - repeat constructor.
  - intros t. repeat split; reflexivity.
Defined.

(** A carriage return inside a tweet ends a line: the tweet comes back as
    two. *)
Lemma break_in_tweet_splits :
  clean (String "A" (String CR "B"))
  ∧ _load_tweets (Opens (String.append (String "A" (String CR "B")) newline))
    = Ok ["A"; "B"].
Proof. repeat split; done. Qed.

(** ** [generate_ai_tweet] and [post_ai_tweet], case by case *)

Lemma take_append_le n s1 s2 :
  n ≤ Str.len s1 → Str.take n (String.append s1 s2) = Str.take n s1.
Proof.
  unfold Str.len. revert s1.
  induction n as [|n IH]; intros [|c s1] H; simpl in *;
    try lia; try done; try (by destruct s2).
  rewrite IH by lia. done.
Qed.

Lemma take_take n s : Str.take n (Str.take n s) = Str.take n s.
Proof.
  revert s. induction n as [|n IH]; intros [|c s]; simpl; try done. by rewrite IH.
Qed.

Lemma cap_take text : Str.take 277 (cap text) = Str.take 277 text.
Proof.
  unfold cap. case_decide; [|done].
  rewrite take_append_le; [apply take_take|]. rewrite len_take. lia.
Qed.

Lemma cap_len_min text : Str.len (cap text) = Str.len text `min` 280.
Proof.
  destruct (decide (280 < Str.len text)) as [Hl|Hs].
  - rewrite (proj2 (cap_long _ Hl)). lia.
  - rewrite cap_short by lia. lia.
Qed.

Lemma generate_ai_tweet_available E self topic :
  ai_available self →
  generate_ai_tweet E self topic
  = match generate_try E topic with
    | Ok text => Ok text
    | Raise _ => random_choice (tweets self) (choice E 0)
    end.
Proof.
  intros [Hk Hc]. unfold generate_ai_tweet. rewrite Hk.
  by rewrite bool_decide_eq_true_2.
Qed.

Lemma generate_ai_tweet_unavailable E self topic :
  ¬ ai_available self →
  generate_ai_tweet E self topic = random_choice (tweets self) (choice E 0).
Proof.
  intros Hn. unfold generate_ai_tweet.
  destruct (_validate_ai_credentials self) eqn:Hk; [|done].
  rewrite bool_decide_eq_false_2; [done|]. intros Hc. by apply Hn.
Qed.

(** X4: when the client is there and the backend answers, the tweet is made
    from the content of the first choice alone: it is the stripped content,
    kept whole when it has at most 280 characters and else cut to exactly 280,
    its first 277 characters followed by three dots; the corpus and the
    further choices play no part. *)
Theorem generate_ai_tweet_from_backend (E : env) (self : TwitterAgent)
    (topic : option string) (content : string) (rest : list (option string)) :
  ai_available self →
  chat_completion E topic = Ok (Completion (Some content :: rest)) →
  ∃ m, generate_ai_tweet E self topic = Ok m
    ∧ Str.len m = Str.len (Str.strip content) `min` 280
    ∧ Str.take 277 m = Str.take 277 (Str.strip content)
    ∧ (Str.len (Str.strip content) ≤ 280 → m = Str.strip content)
    ∧ (280 < Str.len (Str.strip content) →
       m = String.append (Str.take 277 (Str.strip content)) "...").
Proof.
  intros Hav Hc. exists (cap (Str.strip content)).
  rewrite generate_ai_tweet_available by done. unfold generate_try. rewrite Hc.
  split; [done|]. split; [apply cap_len_min|]. split; [apply cap_take|].
  split; [apply cap_short|]. intros H. apply (cap_long _ H).
Qed.

Lemma generate_ai_tweet_from_backend_witness :
  ∃ m, generate_ai_tweet E_ai_long (ai_agent_of ["A"]) None = Ok m
    ∧ Str.len m = Str.len (Str.strip (Str.replicate 300 "x")) `min` 280
    ∧ Str.take 277 m = Str.take 277 (Str.strip (Str.replicate 300 "x"))
    ∧ (Str.len (Str.strip (Str.replicate 300 "x")) ≤ 280 →
       m = Str.strip (Str.replicate 300 "x"))
    ∧ (280 < Str.len (Str.strip (Str.replicate 300 "x")) →
       m = String.append (Str.take 277 (Str.strip (Str.replicate 300 "x"))) "...").
Proof.
  apply (generate_ai_tweet_from_backend E_ai_long (ai_agent_of ["A"]) None _ []).
  - split; [reflexivity|]. by eexists.
  - reflexivity.
Defined.

(** X5: a content of spaces only is no failure for [generate_ai_tweet]: it
    returns the empty tweet instead of falling back to the corpus, and
    [post_ai_tweet] hands the empty text to the rich channel. *)
Theorem blank_answer_posts_empty_tweet (E : env) (self : TwitterAgent)
    (topic : option string) (content : string) (rest : list (option string)) :
  ai_available self →
  chat_completion E topic = Ok (Completion (Some content :: rest)) →
  blank content = true →
  generate_ai_tweet E self topic = Ok EmptyString
  ∧ (0, CreateTweet EmptyString) ∈ (post_ai_tweet E self topic).2.
Proof.
  intros Hav Hc Hb.
  assert (generate_ai_tweet E self topic = Ok EmptyString) as Hg.
  { rewrite generate_ai_tweet_available by done. unfold generate_try.
    by rewrite Hc, (proj1 (strip_blank content) Hb). }
  split; [done|]. unfold post_ai_tweet. rewrite Hg.
  destruct (create_tweet E 0 EmptyString) as [[| |]|];
    try destruct (update_status E 0 EmptyString) as [[[|]]|];
    apply list_elem_of_here.
Qed.

Lemma blank_answer_posts_empty_tweet_witness :
  generate_ai_tweet E_ai_blank (ai_agent_of ["A"]) None = Ok EmptyString
  ∧ (0, CreateTweet EmptyString) ∈ (post_ai_tweet E_ai_blank (ai_agent_of ["A"]) None).2.
Proof.
  apply (blank_answer_posts_empty_tweet E_ai_blank (ai_agent_of ["A"]) None "  " []).
  - split; [reflexivity|]. by eexists.
  - reflexivity.
  - reflexivity.
Defined.

(** X6: with a corpus that is not empty, [generate_ai_tweet] returns a text
    whatever the client and the backend do; the text is an entry of the
    corpus, the one drawn, whenever the client is missing, the key is missing
    or empty, or the backend call fails. *)
Theorem generate_ai_tweet_falls_back (E : env) (self : TwitterAgent)
    (topic : option string) :
  tweets self ≠ [] →
  (∃ m, generate_ai_tweet E self topic = Ok m)
  ∧ (¬ ai_available self ∨ backend_failed E topic →
     ∃ m, generate_ai_tweet E self topic = Ok m ∧ m ∈ tweets self
          ∧ random_choice (tweets self) (choice E 0) = Ok m).
Proof.
  intros Hne. split; [by apply generate_ai_tweet_total|].
  destruct (random_choice_nonempty _ (choice E 0) Hne) as [m Hm].
  intros Hcase. exists m.
  split; [|split; [by eapply random_choice_elem|done]].
  destruct (decide (_validate_ai_credentials self = true ∧ is_Some (ai_client self)))
    as [Hav|Hnav].
  - destruct Hcase as [Hn|Hf]; [by destruct Hn|].
    rewrite generate_ai_tweet_available by done.
    unfold backend_failed in Hf. unfold generate_try.
    by destruct (chat_completion E topic) as [[[|[c|] r]]|].
  - by rewrite generate_ai_tweet_unavailable.
Qed.

Lemma generate_ai_tweet_falls_back_witness :
  ∃ m, generate_ai_tweet E_auth (ai_agent_of ["A"]) None = Ok m
       ∧ m ∈ tweets (ai_agent_of ["A"])
       ∧ random_choice (tweets (ai_agent_of ["A"])) (choice E_auth 0) = Ok m.
Proof.
  apply (generate_ai_tweet_falls_back E_auth (ai_agent_of ["A"]) None); [done|].
  right. exact I.
Defined.

(** X7: with a corpus that is not empty, [post_ai_tweet] never raises,
    whatever the two channels and the backend do: it calls the rich channel
    once and the legacy channel at most once, after it and with the same text,
    and never sleeps; it reports a success through the rich channel exactly
    when that channel returned an id; when it did not, it reports a success
    through the legacy channel exactly when the legacy channel returned an
    id; and it reports the failure of both exactly when neither did. *)
Theorem post_ai_tweet_swallows_failures (E : env) (self : TwitterAgent)
    (topic : option string) :
  tweets self ≠ [] →
  ∃ m, generate_ai_tweet E self topic = Ok m
    ∧ (∀ ex, (post_ai_tweet E self topic).1 ≠ Raised ex)
    ∧ ((post_ai_tweet E self topic).2 = [(0, CreateTweet m)]
       ∨ (post_ai_tweet E self topic).2 = [(0, CreateTweet m); (0, UpdateStatus m)])
    ∧ (∀ id, create_tweet E 0 m = Ok (RespData id) ↔
             post_ai_tweet E self topic = (Posted method1_name id m, [(0, CreateTweet m)]))
    ∧ (∀ method id text, (post_ai_tweet E self topic).1 = Posted method id text →
         text = m
         ∧ (method = method1_name ∧ create_tweet E 0 m = Ok (RespData id)
            ∨ method = method2_name ∧ update_status E 0 m = Ok (Status (Some id))))
    ∧ (∀ id, (∀ id1, create_tweet E 0 m ≠ Ok (RespData id1)) →
         (update_status E 0 m = Ok (Status (Some id)) ↔
          post_ai_tweet E self topic
          = (Posted method2_name id m, [(0, CreateTweet m); (0, UpdateStatus m)])))
    ∧ ((∀ id, create_tweet E 0 m ≠ Ok (RespData id))
       ∧ (∀ id, update_status E 0 m ≠ Ok (Status (Some id))) ↔
       post_ai_tweet E self topic
       = (Failed [method1_name; method2_name],
          [(0, CreateTweet m); (0, UpdateStatus m)]))
    ∧ (∀ ms, (post_ai_tweet E self topic).1 = Failed ms →
         ms = [method1_name; method2_name]).
Proof.
  intros Hne. destruct (generate_ai_tweet_total E self topic Hne) as [m Hm].
  exists m. split; [done|]. unfold post_ai_tweet. rewrite Hm.
  destruct (create_tweet E 0 m) as [[id1| |]|ex1];
    try destruct (update_status E 0 m) as [[[id2|]]|ex2]; simpl.
  all: split; [done|].
  all: split; [auto; fail|].
  all: split; [intros id; split; intros Heq; by simplify_eq|].
  all: split; [intros method id text Heq; simplify_eq; auto|].
  all: split; [intros id Hn; split; intros Heq; simplify_eq; try done;
               by destruct (Hn id1)|].
  all: split; [|intros ms Heq; by simplify_eq].
  all: split; [intros [Hn1 Hn2]; try done; try (by destruct (Hn1 id1));
               by destruct (Hn2 id2)
              |intros Heq; by simplify_eq].
Qed.

Lemma post_ai_tweet_swallows_failures_witness :
  ∃ m, generate_ai_tweet E_auth agent_A None = Ok m
    ∧ (∀ ex, (post_ai_tweet E_auth agent_A None).1 ≠ Raised ex)
    ∧ post_ai_tweet E_auth agent_A None
      = (Failed [method1_name; method2_name], [(0, CreateTweet m); (0, UpdateStatus m)]).
Proof.
  destruct (post_ai_tweet_swallows_failures E_auth agent_A None)
    as (m & Hm & Hr & _ & _ & _ & _ & Hf & _); [done|].
  exists m. split; [exact Hm|]. split; [exact Hr|].
  apply (proj1 Hf). injection Hm as <-. split; intros id; done.
Defined.

(** The legacy channel posts what the rich channel answered without data
    for. *)
Lemma post_ai_tweet_legacy_success :
  post_ai_tweet E_no_data agent_A None
  = (Posted method2_name "1001" "A", [(0, CreateTweet "A"); (0, UpdateStatus "A")]).
Proof. reflexivity. Qed.

(** ** How a run of [post_tweet] ends *)

Lemma total_sleep_app tr1 tr2 :
  (total_sleep (tr1 ++ tr2) == total_sleep tr1 + total_sleep tr2)%Q.
Proof.
  induction tr1 as [|[r [d|t|t]] tr1 IH]; simpl; [lra|rewrite IH; lra|done..].
Qed.

Lemma body_no_break E corpus r st st' : (body E corpus r st).1 ≠ Break st'.
Proof.
  rewrite body_selected. destruct (selected E corpus r st); simpl; [|done].
  apply deliver_no_break.
Qed.

Lemma total_sleep_deliver E r st1 : total_sleep (tag r (deliver E r st1).2) = 0%Q.
Proof. by destruct (deliver_events E r st1) as [-> | ->]. Qed.

Lemma deliver_rounds_deliver E r st1 : deliver_rounds (tag r (deliver E r st1).2) = 1.
Proof. by destruct (deliver_events E r st1) as [-> | ->]. Qed.

Lemma total_sleep_body E corpus r st :
  (total_sleep (tag r (body E corpus r st).2)
   == if decide (0 < r)%nat then backoff_time E r else 0)%Q.
Proof.
  rewrite body_selected.
  assert (total_sleep (tag r (backoff E r))
          == if decide (0 < r)%nat then backoff_time E r else 0)%Q as Hb.
  { unfold backoff. case_decide; simpl; lra. }
  destruct (selected E corpus r st) as [st1|]; simpl; [|done].
  unfold tag in *. rewrite fmap_app, total_sleep_app, Hb.
  pose proof (total_sleep_deliver E r st1) as Hd. unfold tag in Hd. rewrite Hd. lra.
Qed.

Lemma body_continue_rounds E corpus r st st' :
  (body E corpus r st).1 = Continue st' →
  deliver_rounds (tag r (body E corpus r st).2) = 1.
Proof.
  rewrite body_selected. destruct (selected E corpus r st) as [st1|]; simpl; [|done].
  intros _. unfold tag. rewrite fmap_app, deliver_rounds_app.
  pose proof (deliver_rounds_deliver E r st1) as Hd. unfold tag in Hd. rewrite Hd.
  unfold backoff. by case_decide.
Qed.

(** How a pass through the methods can leave the function. *)
Lemma deliver_exit E r st1 o :
  (deliver E r st1).1 = Exit o →
  let t := tweet st1 in
  (∃ id, o = Posted method1_name id t
         ∧ create_tweet E r t = Ok (RespData id)
         ∧ (deliver E r st1).2 = [CreateTweet t])
  ∨ (∃ id, o = Posted method2_name id t
           ∧ update_status E r t = Ok (Status (Some id))
           ∧ (deliver E r st1).2 = [CreateTweet t; UpdateStatus t])
  ∨ (o = Raised unbound_e
     ∧ (∀ id, update_status E r t ≠ Ok (Status (Some id)))
     ∧ (∀ s, update_status E r t ≠ Raise (TooManyRequests s))
     ∧ (deliver E r st1).2 = [CreateTweet t; UpdateStatus t]).
Proof.
  pose proof (deliver_spec E r st1) as H. simpl in *.
  destruct (create_tweet E r (tweet st1)) as [[| |]|[]];
    try destruct (update_status E r (tweet st1)) as [[[|]]|[]];
    try destruct H as (? & H & ? & ?); rewrite H; simpl; intros [= <-];
    eauto 10.
Qed.

Lemma body_exit E corpus r st o :
  (body E corpus r st).1 = Exit o →
  (∃ method id text, o = Posted method id text) ∨ (∃ ex, o = Raised ex).
Proof.
  rewrite body_selected. destruct (selected E corpus r st) as [st1|]; simpl.
  - intros [(?&->&_)|[(?&->&_)|(->&_)]]%deliver_exit; eauto.
  - intros [= <-]. eauto.
Qed.

Section Endings.
Context (E : env) (corpus : list string).

Lemma for_retry_cons_outcome r rs st :
  (for_retry E corpus (r :: rs) st).1 =
    match (body E corpus r st).1 with
    | Continue st' => (for_retry E corpus rs st').1
    | Break st' => Failed (methods_tried st')
    | Exit o => o
    end.
Proof.
  simpl. destruct (body E corpus r st) as [[st'|st'|o] evs]; simpl; [|done..].
  by destruct (for_retry E corpus rs st').
Qed.

(** A loop that ends with the failure report has passed through all its
    rounds, each ending with [continue]. *)
Lemma for_retry_failed rs st ms :
  NoDup rs → (for_retry E corpus rs st).1 = Failed ms →
  (∀ r, r ∈ rs →
     ∃ st_r st', entry_state E corpus rs st r = Some st_r
                 ∧ (body E corpus r st_r).1 = Continue st')
  ∧ deliver_rounds (for_retry E corpus rs st).2 = length rs
  ∧ (total_sleep (for_retry E corpus rs st).2 == sum_backoff E rs)%Q
  ∧ (rs = [] ∧ ms = methods_tried st
     ∨ ∃ r st_r st', last rs = Some r
         ∧ entry_state E corpus rs st r = Some st_r
         ∧ (body E corpus r st_r).1 = Continue st' ∧ ms = methods_tried st').
Proof.
  intros Hnd. revert st. induction Hnd as [|r0 rs Hr0 Hnd IH]; intros st Hout.
  { simpl in *. injection Hout as <-. split; [by intros r ?%not_elem_of_nil|].
    split; [done|]. split; [done|]. by left. }
  pose proof (body_no_break E corpus r0 st) as Hnb.
  pose proof (total_sleep_body E corpus r0 st) as Hsl.
  pose proof (body_continue_rounds E corpus r0 st) as Hdr.
  pose proof (body_exit E corpus r0 st (Failed ms)) as Hex.
  rewrite for_retry_cons_outcome in Hout. rewrite for_retry_cons.
  cbn [entry_state].
  destruct ((body E corpus r0 st).1) as [st'|st'|o] eqn:Hb;
    [|by destruct (Hnb st')|].
  - destruct (IH st' Hout) as (Hall & Hcount & Hsleep & Hlast).
    split; [|split; [|split]].
    + intros r [->|Hr]%elem_of_cons.
      * exists st, st'. by rewrite decide_True.
      * rewrite decide_False by (intros ->; done). by apply Hall.
    + rewrite deliver_rounds_app, Hcount, (Hdr st' eq_refl). done.
    + rewrite total_sleep_app, Hsleep, Hsl. done.
    + right. destruct Hlast as [[-> ->]|(r & st_r & st2 & Hl & Hent & Hc & ->)].
      * exists r0, st, st'. by rewrite decide_True.
      * exists r, st_r, st2.
        assert (r ∈ rs) as Hin by (by apply last_Some_elem_of).
        rewrite decide_False by (intros ->; done).
        split; [|done]. rewrite last_cons. by rewrite Hl.
  - subst o. by destruct (Hex eq_refl) as [(? & ? & ? & ?)|[? ?]].
Qed.

(** A loop that ends in another way ends in one of its rounds, with the
    calls of that round as the last of the trace. *)
Lemma for_retry_exited rs st o :
  NoDup rs → (for_retry E corpus rs st).1 = o → (∀ ms, o ≠ Failed ms) →
  ∃ r st_r pre,
    entry_state E corpus rs st r = Some st_r
    ∧ (body E corpus r st_r).1 = Exit o
    ∧ (for_retry E corpus rs st).2 = pre ++ tag r (body E corpus r st_r).2.
Proof.
  intros Hnd. revert st. induction Hnd as [|r0 rs Hr0 Hnd IH]; intros st Hout Hnf.
  { simpl in Hout. by destruct (Hnf (methods_tried st)). }
  pose proof (body_no_break E corpus r0 st) as Hnb.
  rewrite for_retry_cons_outcome in Hout. rewrite for_retry_cons.
  cbn [entry_state].
  destruct ((body E corpus r0 st).1) as [st'|st'|o'] eqn:Hb;
    [|by destruct (Hnb st')|].
  - destruct (IH st' Hout Hnf) as (r & st_r & pre & Hent & Hex & Hpre).
    assert (r ∈ rs) as Hin.
    { destruct (decide (r ∈ rs)) as [|Hn]; [done|]. exfalso.
      clear -Hent Hn. revert st' Hent. induction rs as [|a rs IHrs]; intros st' Hent;
        [done|]. simpl in Hent. apply not_elem_of_cons in Hn as [Hne Hn].
      rewrite decide_False in Hent by done.
      destruct ((body E corpus a st').1); [by eapply IHrs|done..]. }
    exists r, st_r, (tag r0 (body E corpus r0 st).2 ++ pre).
    rewrite decide_False by (intros ->; done).
    split; [done|]. split; [done|]. by rewrite Hpre, app_assoc.
  - subst o'. exists r0, st, []. rewrite decide_True by done.
    split; [done|]. split; [done|]. by rewrite app_nil_r.
Qed.

End Endings.

Lemma deliver_continue_cases E r st1 st' :
  (deliver E r st1).1 = Continue st' →
  (∃ s, create_tweet E r (tweet st1) = Raise (TooManyRequests s)
        ∧ methods_tried st' = [method1_name]
        ∧ (deliver E r st1).2 = [CreateTweet (tweet st1)])
  ∨ (∃ s, update_status E r (tweet st1) = Raise (TooManyRequests s)
          ∧ methods_tried st' = [method1_name; method2_name]
          ∧ (deliver E r st1).2 = [CreateTweet (tweet st1); UpdateStatus (tweet st1)]).
Proof.
  unfold deliver, method2, after_methods. simpl.
  destruct (create_tweet E r (tweet st1)) as [[| |]|[]]; simpl;
    try destruct (update_status E r (tweet st1)) as [[[|]]|[]]; simpl;
    intros [= <-]; simpl; eauto 10.
Qed.

Section EndingsOfRun.
Context (E : env) (self : TwitterAgent).

Lemma post_tweet_no_tweets : (post_tweet E self).1 = NoTweets ↔ tweets self = [].
Proof.
  split; [|intros H; by rewrite (post_tweet_empty E self H)].
  intros Hout. destruct (decide (tweets self = [])) as [|Hne]; [done|]. exfalso.
  destruct (round_entry_0 E self Hne) as (t0 & _ & H0 & _).
  rewrite (post_tweet_run _ _ _ H0) in Hout.
  destruct (for_retry_exited E (tweets self) _ _ _ (NoDup_seq 0 _) Hout)
    as (r & st_r & _ & _ & Hex & _); [done|].
  by destruct (body_exit _ _ _ _ _ Hex) as [(? & ? & ? & ?)|[? ?]].
Qed.

(** A run that returns a success or raises does so in a pass through the
    methods, whose calls are the last of the trace. *)
Lemma post_tweet_exit o :
  (post_tweet E self).1 = o → (∀ ms, o ≠ Failed ms) → o ≠ NoTweets →
  ∃ r st_r st1 pre,
    round_entry E self r = Some st_r
    ∧ selected E (tweets self) r st_r = Ok st1
    ∧ (deliver E r st1).1 = Exit o
    ∧ (post_tweet E self).2 = pre ++ tag r (deliver E r st1).2.
Proof.
  intros Hout Hnf Hnt.
  assert (tweets self ≠ []) as Hne.
  { intros Hnil. apply Hnt. rewrite <- Hout. by apply post_tweet_no_tweets. }
  destruct (round_entry_0 E self Hne) as (t0 & _ & H0 & _).
  assert (∀ r, round_entry E self r
               = entry_state E (tweets self) (seq 0 (max_retries + 1)) (first_locals t0) r)
    as Hre by (intros r; unfold round_entry; by rewrite H0).
  rewrite (post_tweet_run _ _ _ H0) in Hout |- *.
  destruct (for_retry_exited E (tweets self) _ _ _ (NoDup_seq 0 _) Hout Hnf)
    as (r & st_r & pre & Hent & Hex & Htr).
  rewrite <- Hre in Hent.
  destruct (round_selected _ _ _ _ Hent) as [st1 Hsel].
  rewrite body_selected, Hsel in Hex, Htr. cbn [fst snd] in Hex, Htr.
  exists r, st_r, st1, (pre ++ tag r (backoff E r)).
  split; [done|]. split; [done|]. split; [done|].
  rewrite Htr. unfold tag. by rewrite fmap_app, app_assoc.
Qed.

Lemma post_tweet_failed ms :
  (post_tweet E self).1 = Failed ms →
  deliver_rounds (post_tweet E self).2 = max_retries + 1
  ∧ (total_sleep (post_tweet E self).2 == sum_backoff E (seq 0 (max_retries + 1)))%Q
  ∧ (∀ r, r ≤ max_retries →
       ∃ st_r st', round_entry E self r = Some st_r
                   ∧ (body E (tweets self) r st_r).1 = Continue st')
  ∧ ∃ st_r st', round_entry E self max_retries = Some st_r
                ∧ (body E (tweets self) max_retries st_r).1 = Continue st'
                ∧ ms = methods_tried st'.
Proof.
  intros Hout.
  assert (tweets self ≠ []) as Hne.
  { intros Hnil. by rewrite (post_tweet_empty E self Hnil) in Hout. }
  destruct (round_entry_0 E self Hne) as (t0 & _ & H0 & _).
  assert (∀ r, round_entry E self r
               = entry_state E (tweets self) (seq 0 (max_retries + 1)) (first_locals t0) r)
    as Hre by (intros r; unfold round_entry; by rewrite H0).
  rewrite (post_tweet_run _ _ _ H0) in Hout |- *.
  destruct (for_retry_failed E (tweets self) _ _ _ (NoDup_seq 0 _) Hout)
    as (Hall & Hcount & Hsleep & Hlast).
  split; [by rewrite Hcount, length_seq|]. split; [done|]. split.
  - intros r Hr. rewrite Hre. apply Hall, elem_of_seq. lia.
  - destruct Hlast as [[Hnil _]|(r & st_r & st' & Hl & Hent & Hc & ->)]; [done|].
    assert (r = max_retries) as -> by (vm_compute in Hl; by injection Hl as <-).
    exists st_r, st'. by rewrite Hre.
Qed.

End EndingsOfRun.

(** X8: a run of [post_tweet] ends in one of four ways.  It returns at once
    exactly when the corpus is empty.  The only exception that leaves it is
    the [UnboundLocalError] of line 205, raised right after a legacy post that
    failed with something else than a rate limit.  It reports a failure only
    after [max_retries + 1] rounds that each ended with a rate-limit failure
    of one of the two channels (the [break] of line 206 is never taken).
    Otherwise it returns a success. *)
Theorem post_tweet_endings (E : env) (self : TwitterAgent) :
  ((post_tweet E self).1 = NoTweets ↔ tweets self = [])
  ∧ (∀ ex, (post_tweet E self).1 = Raised ex →
       ex = unbound_e
       ∧ ∃ r m pre,
           (post_tweet E self).2 = pre ++ [(r, CreateTweet m); (r, UpdateStatus m)]
           ∧ (∀ id, update_status E r m ≠ Ok (Status (Some id)))
           ∧ (∀ s, update_status E r m ≠ Raise (TooManyRequests s)))
  ∧ (∀ ms, (post_tweet E self).1 = Failed ms →
       deliver_rounds (post_tweet E self).2 = max_retries + 1
       ∧ (ms = [method1_name] ∨ ms = [method1_name; method2_name])
       ∧ ∀ r, r ≤ max_retries →
           ∃ m s, (r, CreateTweet m) ∈ (post_tweet E self).2
                  ∧ (create_tweet E r m = Raise (TooManyRequests s)
                     ∨ update_status E r m = Raise (TooManyRequests s))).
Proof.
  split; [apply post_tweet_no_tweets|]. split.
  - intros ex Hout.
    destruct (post_tweet_exit E self _ Hout) as (r & st_r & st1 & pre & _ & _ & Hex & Htr);
      [done..|].
    apply deliver_exit in Hex as [(?&?&_)|[(?&?&_)|(Heq & Hn1 & Hn2 & Hev)]]; try done.
    injection Heq as ->. split; [done|].
    exists r, (tweet st1), pre. rewrite Htr, Hev. done.
  - intros ms Hout.
    destruct (post_tweet_failed E self ms Hout) as (Hcount & _ & Hall & Hlast).
    split; [done|]. split.
    + destruct Hlast as (st_r & st' & Hent & Hc & ->).
      destruct (round_selected _ _ _ _ Hent) as [st1 Hsel].
      rewrite body_selected, Hsel in Hc. cbn [fst snd] in Hc.
      apply deliver_continue_cases in Hc as [(?&_&->&_)|(?&_&->&_)]; auto.
    + intros r Hr. destruct (Hall r Hr) as (st_r & st' & Hent & Hc).
      destruct (round_selected _ _ _ _ Hent) as [st1 Hsel].
      rewrite body_selected, Hsel in Hc. cbn [fst snd] in Hc.
      exists (tweet st1).
      apply deliver_continue_cases in Hc as [(s&Hs&_)|(s&Hs&_)]; exists s;
        (split; [by eapply round_create|auto]).
Qed.

Lemma post_tweet_endings_witness :
  unbound_e = unbound_e
  ∧ ∃ r m pre,
      (post_tweet E_auth agent_A).2 = pre ++ [(r, CreateTweet m); (r, UpdateStatus m)]
      ∧ (∀ id, update_status E_auth r m ≠ Ok (Status (Some id)))
      ∧ (∀ s, update_status E_auth r m ≠ Raise (TooManyRequests s)).
Proof.
  exact (proj1 (proj2 (post_tweet_endings E_auth agent_A)) unbound_e eq_refl).
Defined.

(** X9: a success ends the run: when [post_tweet] returns the success of a
    channel, the call of that channel is the last call of the trace, it was
    made with the text that is reported, and it returned the id that is
    reported; after a success of the rich channel the legacy channel is not
    called in that round. *)
Theorem post_tweet_success_is_final (E : env) (self : TwitterAgent)
    (method id text : string) :
  (post_tweet E self).1 = Posted method id text →
  ∃ r pre, r ≤ max_retries
    ∧ (method = method1_name
       ∧ create_tweet E r text = Ok (RespData id)
       ∧ (post_tweet E self).2 = pre ++ [(r, CreateTweet text)]
       ∨ method = method2_name
         ∧ update_status E r text = Ok (Status (Some id))
         ∧ (post_tweet E self).2
           = pre ++ [(r, CreateTweet text); (r, UpdateStatus text)]).
Proof.
  intros Hout.
  destruct (post_tweet_exit E self _ Hout) as (r & st_r & st1 & pre & Hent & _ & Hex & Htr);
    [done..|].
  exists r, pre. split; [by eapply round_entry_range|].
  apply deliver_exit in Hex as [(i&Heq&Hc&Hev)|[(i&Heq&Hu&Hev)|(?&_)]]; [| |done];
    injection Heq as -> -> ->; rewrite Htr, Hev; auto.
Qed.

Lemma post_tweet_success_is_final_witness :
  ∃ r pre, r ≤ max_retries
    ∧ (method2_name = method1_name
       ∧ create_tweet E_no_data r "A" = Ok (RespData "1001")
       ∧ (post_tweet E_no_data agent_A).2 = pre ++ [(r, CreateTweet "A")]
       ∨ method2_name = method2_name
         ∧ update_status E_no_data r "A" = Ok (Status (Some "1001"))
         ∧ (post_tweet E_no_data agent_A).2
           = pre ++ [(r, CreateTweet "A"); (r, UpdateStatus "A")]).
Proof.
  exact (post_tweet_success_is_final E_no_data agent_A method2_name "1001" "A" eq_refl).
Defined.

Lemma round_tweet_unique E self r a b :
  (r, CreateTweet a) ∈ (post_tweet E self).2 →
  (r, CreateTweet b) ∈ (post_tweet E self).2 → a = b.
Proof.
  intros Ha Hb.
  destruct (round_posted _ _ _ _ _ Ha eq_refl) as (st_r & st1 & Hent & Hsel & <- & _).
  destruct (round_posted _ _ _ _ _ Hb eq_refl) as (st_r' & st1' & Hent' & Hsel' & <- & _).
  congruence.
Qed.

Lemma legacy_after_rich E self r m :
  (r, UpdateStatus m) ∈ (post_tweet E self).2 →
  (r, CreateTweet m) ∈ (post_tweet E self).2
  ∧ (∀ id, create_tweet E r m ≠ Ok (RespData id))
  ∧ (∀ s, create_tweet E r m ≠ Raise (TooManyRequests s)).
Proof.
  intros Hin.
  destruct (round_posted _ _ _ _ _ Hin eq_refl) as (st_r & st1 & Hent & Hsel & <- & Hev).
  split; [by eapply round_create|].
  pose proof (deliver_spec E r st1) as Hd. simpl in Hd.
  destruct (create_tweet E r (tweet st1)) as [[| |]|[]]; try done;
    [|destruct Hd as (? & Hd & _)]; rewrite Hd in Hev; simpl in Hev;
    repeat (apply elem_of_cons in Hev as [[=]|Hev]); by apply not_elem_of_nil in Hev.
Qed.

(** X10: in each round of [post_tweet] the two channels get the same
    text, one tweet per round: the legacy channel is called only after the
    rich channel was called with that text in the same round and neither
    returned an id nor failed with a rate limit. *)
Theorem one_tweet_per_round (E : env) (self : TwitterAgent) (r : nat) :
  (∀ a b, (r, CreateTweet a) ∈ (post_tweet E self).2 →
          (r, CreateTweet b) ∈ (post_tweet E self).2 → a = b)
  ∧ (∀ m, (r, UpdateStatus m) ∈ (post_tweet E self).2 →
          (r, CreateTweet m) ∈ (post_tweet E self).2
          ∧ (∀ id, create_tweet E r m ≠ Ok (RespData id))
          ∧ (∀ s, create_tweet E r m ≠ Raise (TooManyRequests s))).
Proof.
  split; [apply round_tweet_unique | apply legacy_after_rich].
Qed.

Lemma one_tweet_per_round_witness :
  (0, CreateTweet "A") ∈ (post_tweet E_no_data agent_A).2
  ∧ (∀ id, create_tweet E_no_data 0 "A" ≠ Ok (RespData id))
  ∧ (∀ s, create_tweet E_no_data 0 "A" ≠ Raise (TooManyRequests s)).
Proof.
  assert ((0, UpdateStatus "A") ∈ (post_tweet E_no_data agent_A).2) as Hin
    by in_trace.
  exact (proj2 (one_tweet_per_round E_no_data agent_A 0) "A" Hin).
Defined.

(** ** The time spent in backoff *)

Lemma sum_backoff_all E :
  (sum_backoff E (seq 0 (max_retries + 1))
   == backoff_time E 1 + backoff_time E 2 + backoff_time E 3
      + backoff_time E 4 + backoff_time E 5)%Q.
Proof.
  unfold max_retries. cbn [seq Nat.add sum_backoff].
  rewrite decide_False by lia. rewrite !decide_True by lia. lra.
Qed.

Lemma sum_backoff_range E :
  (∀ r, (0 <= random E r < 1)%Q) →
  (1860 <= sum_backoff E (seq 0 (max_retries + 1)) <= 1910)%Q.
Proof.
  intros Hj. rewrite sum_backoff_all.
  pose proof (backoff_time_bounds E 1 ltac:(unfold max_retries; lia) (Hj 1)) as H1.
  pose proof (backoff_time_bounds E 2 ltac:(unfold max_retries; lia) (Hj 2)) as H2.
  pose proof (backoff_time_bounds E 3 ltac:(unfold max_retries; lia) (Hj 3)) as H3.
  pose proof (backoff_time_bounds E 4 ltac:(unfold max_retries; lia) (Hj 4)) as H4.
  pose proof (backoff_time_bounds E 5 ltac:(unfold max_retries; lia) (Hj 5)) as H5.
  unfold initial_backoff in *.
  change (inject_Z (60 * 2 ^ (Z.of_nat 1 - 1))) with (60 # 1) in H1.
  change (inject_Z (60 * 2 ^ (Z.of_nat 2 - 1))) with (120 # 1) in H2.
  change (inject_Z (60 * 2 ^ (Z.of_nat 3 - 1))) with (240 # 1) in H3.
  change (inject_Z (60 * 2 ^ (Z.of_nat 4 - 1))) with (480 # 1) in H4.
  change (inject_Z (60 * 2 ^ (Z.of_nat 5 - 1))) with (960 # 1) in H5.
  lra.
Qed.

Lemma backoff_time_nonneg E r :
  (0 <= random E r < 1)%Q → (0 <= backoff_time E r)%Q.
Proof.
  intros Hj. pose proof (uniform_bounds E r Hj) as Hu.
  unfold backoff_time, Float.add, Float.of_int.
  apply round_nonneg.
  assert (0 <= Float.round (inject_Z (initial_backoff * 2 ^ (Z.of_nat r - 1))))%Q as Hb.
  { apply round_nonneg. change 0%Q with (inject_Z 0). rewrite <- Zle_Qle.
    unfold initial_backoff. apply Z.mul_nonneg_nonneg; [lia|]. apply Z.pow_nonneg. lia. }
  lra.
Qed.

Lemma total_sleep_for_retry E corpus rs st :
  (∀ r, (0 <= random E r < 1)%Q) →
  (0 <= total_sleep (for_retry E corpus rs st).2 <= sum_backoff E rs)%Q.
Proof.
  intros Hj. revert st. induction rs as [|r rs IH]; intros st; [simpl; lra|].
  rewrite for_retry_cons, total_sleep_app, total_sleep_body. cbn [sum_backoff].
  assert (0 <= (if decide (0 < r)%nat then backoff_time E r else 0))%Q as H0.
  { case_decide; [|lra]. apply backoff_time_nonneg, Hj. }
  assert (0 <= sum_backoff E rs)%Q as Hs.
  { pose proof (IH st). lra. }
  destruct ((body E corpus r st).1) as [st'| |]; [specialize (IH st')| |];
    cbn [snd total_sleep]; lra.
Qed.

(** X11: a run of [post_tweet] whose draws of [random.random()] lie in
    [0, 1) sleeps for at most 1910 seconds in all; and a run that ends with
    the failure report has slept through all five backoffs, the durations of
    rounds 1 to 5 as line 157 computes them, which is at least 1860
    seconds. *)
Theorem total_backoff_bounded (E : env) (self : TwitterAgent) :
  (∀ r, (0 <= random E r < 1)%Q) →
  (0 <= total_sleep (post_tweet E self).2 <= 1910)%Q
  ∧ (∀ ms, (post_tweet E self).1 = Failed ms →
       (total_sleep (post_tweet E self).2
        == backoff_time E 1 + backoff_time E 2 + backoff_time E 3
           + backoff_time E 4 + backoff_time E 5)%Q
       ∧ (1860 <= total_sleep (post_tweet E self).2)%Q).
Proof.
  intros Hj. pose proof (sum_backoff_range E Hj) as Hr. split.
  - unfold post_tweet. destruct (tweets self) as [|x l] eqn:Hl; [simpl; lra|].
    destruct (random_choice (x :: l) (choice E 0)); [|simpl; lra].
    pose proof (total_sleep_for_retry E (x :: l) (seq 0 (max_retries + 1))
                  (first_locals a) Hj) as Hb.
    lra.
  - intros ms Hout. destruct (post_tweet_failed E self ms Hout) as (_ & Hs & _).
    split; [by rewrite Hs, sum_backoff_all|]. rewrite Hs. lra.
Qed.

Lemma total_backoff_bounded_witness :
  (0 <= total_sleep (post_tweet E_rate_limited agent_AB).2 <= 1910)%Q
  ∧ (∀ ms, (post_tweet E_rate_limited agent_AB).1 = Failed ms →
       (total_sleep (post_tweet E_rate_limited agent_AB).2
        == backoff_time E_rate_limited 1 + backoff_time E_rate_limited 2
           + backoff_time E_rate_limited 3 + backoff_time E_rate_limited 4
           + backoff_time E_rate_limited 5)%Q
       ∧ (1860 <= total_sleep (post_tweet E_rate_limited agent_AB).2)%Q).
Proof.
  apply (total_backoff_bounded E_rate_limited agent_AB).
  intros r. simpl. split; [unfold Qle|unfold Qlt]; simpl; lia.
Defined.

(** ** Rotation through the corpus *)

Section Rotation.
Context (E : env) (self : TwitterAgent).

Lemma mod_small_pos r d : 0 < r → r < d → r `mod` d ≠ 0.
Proof. intros Hr Hd. rewrite Nat.mod_small by done. lia. Qed.

(** Before the first reset the used set holds the tweets of all rounds so
    far. *)
Lemma used_tweets_so_far r i m st :
  r < distinct (tweets self) → i ≤ r →
  round_entry E self (S r) = Some st →
  (i, CreateTweet m) ∈ (post_tweet E self).2 →
  m ∈ used_tweets st.
Proof.
  revert i m st. induction r as [|r IH]; intros i m st Hd Hi Hent Hin.
  - assert (i = 0) as -> by lia.
    rewrite <- (round_entry_tweet _ _ _ _ _ Hin Hent).
    by destruct (round_entry_inv _ _ _ _ Hent) as (? & _).
  - destruct (decide (i = S r)) as [->|Hne].
    { rewrite <- (round_entry_tweet _ _ _ _ _ Hin Hent).
      by destruct (round_entry_inv _ _ _ _ Hent) as (? & _). }
    pose proof Hent as Hent'.
    apply round_entry_succ in Hent' as (st_p & Hent_p & Hb).
    rewrite body_selected in Hb. unfold selected in Hb.
    rewrite decide_True in Hb by lia.
    destruct (select_retry (tweets self) (choice E (S r)) st_p) as [st1|] eqn:Hsel;
      [|done].
    cbn [fst] in Hb. apply deliver_continue in Hb as [_ Hu]. rewrite Hu.
    pose proof (round_entry_inv _ _ _ _ Hent_p) as Hinv.
    destruct (used_inv_covers _ _ _ Hinv) as [_ Hcov].
    destruct (select_retry_spec (tweets self) (choice E (S r)) st_p)
      as (st2 & Hsel2 & _ & _ & _ & _ & Hfresh); [by eapply round_entry_nonempty|].
    rewrite Hsel in Hsel2. injection Hsel2 as <-.
    destruct Hfresh as [_ ->].
    { rewrite Hcov. apply mod_small_pos; lia. }
    apply elem_of_union_r. apply (IH i m st_p); [lia|lia|done|done].
Qed.

End Rotation.

(** X12: before the used set is reset for the first time no tweet is
    posted twice: the rounds of a run that come before round [d], for [d] the
    number of distinct entries of the corpus, post pairwise different tweets
    (so all rounds of a run do, when the corpus has six distinct entries or
    more). *)
Theorem no_repeat_in_first_rounds (E : env) (self : TwitterAgent) (i j : nat)
    (a b : string) :
  i < j → j < distinct (tweets self) →
  (i, CreateTweet a) ∈ (post_tweet E self).2 →
  (j, CreateTweet b) ∈ (post_tweet E self).2 →
  a ≠ b.
Proof.
  intros Hij Hj Ha Hb. destruct j as [|r]; [lia|].
  destruct (round_posted _ _ _ _ _ Hb eq_refl) as (st & st1 & Hent & Hsel & <- & _).
  unfold selected in Hsel. rewrite decide_True in Hsel by lia.
  destruct (used_inv_select _ _ _ _ _ (round_entry_inv _ _ _ _ Hent) Hsel) as [_ Hnew].
  assert (a ∈ used_tweets st) as Hused
    by (apply (used_tweets_so_far E self r i a st); [lia|lia|done|done]).
  intros ->. apply Hnew; [|done]. apply mod_small_pos; lia.
Qed.

Lemma no_repeat_in_first_rounds_witness : "A" ≠ "B".
Proof.
  apply (no_repeat_in_first_rounds E_rate_limited agent_AB 0 1 "A" "B").
  - lia.
  - vm_compute. lia.
  - in_trace.
  - in_trace.
Defined.

(** ** Rounds in order *)

Section Order.
Context (E : env) (self : TwitterAgent).

(** A round is entered only after every round before it ended with
    [continue]. *)
Lemma round_entry_earlier r' st' r :
  round_entry E self r' = Some st' → r < r' →
  ∃ st_r st2, round_entry E self r = Some st_r
              ∧ (body E (tweets self) r st_r).1 = Continue st2.
Proof.
  revert st'. induction r' as [|r' IH]; intros st' Hent Hlt; [lia|].
  apply round_entry_succ in Hent as (st_p & Hent_p & Hb).
  destruct (decide (r = r')) as [->|Hne]; [eauto|].
  apply (IH st_p Hent_p). lia.
Qed.

End Order.

(** X13: the first success wins: when the rich channel returns an id in a
    round of [post_tweet], the run returns that success; the legacy channel is
    not called in that round, and no later round takes place. *)
Theorem rich_success_returns (E : env) (self : TwitterAgent) (r : nat)
    (m id : string) :
  (r, CreateTweet m) ∈ (post_tweet E self).2 →
  create_tweet E r m = Ok (RespData id) →
  (post_tweet E self).1 = Posted method1_name id m
  ∧ (∀ m', (r, UpdateStatus m') ∉ (post_tweet E self).2)
  ∧ (∀ r' ev, (r', ev) ∈ (post_tweet E self).2 → r' ≤ r).
Proof.
  intros Hin Hok.
  destruct (round_posted _ _ _ _ _ Hin eq_refl) as (st_r & st1 & Hent & Hsel & <- & _).
  pose proof (deliver_spec E r st1) as Hd. simpl in Hd. rewrite Hok in Hd.
  assert ((body E (tweets self) r st_r).1 = Exit (Posted method1_name id (tweet st1)))
    as Hb by (by rewrite body_selected, Hsel, Hd).
  split; [by eapply round_exit|]. split.
  - intros m' Hm'.
    destruct (legacy_after_rich E self r m' Hm') as (Hc & Hn & _).
    destruct (round_posted _ _ _ _ _ Hc eq_refl) as (st_r' & st1' & Hent' & Hsel' & <- & _).
    apply (Hn id). congruence.
  - intros r' ev (st' & Hent' & _)%post_tweet_events.
    destruct (decide (r' ≤ r)) as [|Hgt]; [done|]. exfalso.
    destruct (round_entry_earlier E self r' st' r Hent') as (st_r2 & st2 & Hent2 & Hc);
      [lia|].
    congruence.
Qed.

Lemma rich_success_returns_witness :
  (post_tweet E_ai_long agent_A).1 = Posted method1_name "2002" "A"
  ∧ (∀ m', (0, UpdateStatus m') ∉ (post_tweet E_ai_long agent_A).2)
  ∧ (∀ r' ev, (r', ev) ∈ (post_tweet E_ai_long agent_A).2 → r' ≤ 0).
Proof.
  apply (rich_success_returns E_ai_long agent_A 0 "A" "2002"); [in_trace|reflexivity].
Defined.

(** X14: when the corpus is not empty and the rich channel answers every
    post with a rate-limit failure, a run of [post_tweet] goes through all
    [max_retries + 1] rounds, never calls the legacy channel, sleeps through
    the five backoffs, the durations of rounds 1 to 5 as line 157 computes
    them, between 1860 and 1910 seconds in all when the draws of
    [random.random()] lie in [0, 1), and ends with the failure report, which
    names the rich channel alone. *)
Theorem rate_limit_exhaustion (E : env) (self : TwitterAgent) :
  tweets self ≠ [] →
  (∀ r m, ∃ s, create_tweet E r m = Raise (TooManyRequests s)) →
  (post_tweet E self).1 = Failed [method1_name]
  ∧ deliver_rounds (post_tweet E self).2 = max_retries + 1
  ∧ (∀ r m, (r, UpdateStatus m) ∉ (post_tweet E self).2)
  ∧ (total_sleep (post_tweet E self).2
     == backoff_time E 1 + backoff_time E 2 + backoff_time E 3
        + backoff_time E 4 + backoff_time E 5)%Q
  ∧ ((∀ r, (0 <= random E r < 1)%Q) →
     (1860 <= total_sleep (post_tweet E self).2 <= 1910)%Q).
Proof.
  intros Hne Hrl.
  assert (∀ r st1, ∃ st', (deliver E r st1).1 = Continue st'
                          ∧ methods_tried st' = [method1_name]) as Hcont.
  { intros r st1. destruct (Hrl r (tweet st1)) as [s Hs].
    unfold deliver. simpl. rewrite Hs. simpl. eauto. }
  assert (∃ ms, (post_tweet E self).1 = Failed ms) as [ms Hout].
  { destruct ((post_tweet E self).1) as [method id text| |ms|ex] eqn:Hout; [| |eauto|].
    - destruct (post_tweet_exit E self _ Hout) as (r & _ & st1 & _ & _ & _ & Hex & _);
        [done..|].
      destruct (Hcont r st1) as (? & ? & _). congruence.
    - by apply post_tweet_no_tweets in Hout.
    - destruct (post_tweet_exit E self _ Hout) as (r & _ & st1 & _ & _ & _ & Hex & _);
        [done..|].
      destruct (Hcont r st1) as (? & ? & _). congruence. }
  destruct (post_tweet_failed E self ms Hout) as (Hcount & Hs & _ & Hlast).
  split; [|split; [done|split; [|split]]].
  - rewrite Hout. f_equal.
    destruct Hlast as (st_r & st' & Hent & Hc & ->).
    destruct (round_selected _ _ _ _ Hent) as [st1 Hsel].
    rewrite body_selected, Hsel in Hc. cbn [fst] in Hc.
    destruct (Hcont max_retries st1) as (st2 & Hc2 & Hm). congruence.
  - intros r m Hin. destruct (legacy_after_rich E self r m Hin) as (_ & _ & Hn).
    destruct (Hrl r m) as [s Hsm]. by apply (Hn s).
  - by rewrite Hs, sum_backoff_all.
  - intros Hj. rewrite Hs. apply sum_backoff_range, Hj.
Qed.

Lemma rate_limit_exhaustion_witness :
  (post_tweet E_rate_limited agent_AB).1 = Failed [method1_name]
  ∧ deliver_rounds (post_tweet E_rate_limited agent_AB).2 = max_retries + 1
  ∧ (1860 <= total_sleep (post_tweet E_rate_limited agent_AB).2 <= 1910)%Q.
Proof.
  destruct (rate_limit_exhaustion E_rate_limited agent_AB) as (H1 & H2 & _ & _ & H5).
  - done.
  - intros r m. by eexists.
  - split; [exact H1|]. split; [exact H2|]. apply H5.
    intros r. simpl. split; [unfold Qle|unfold Qlt]; simpl; lia.
Defined.

(** ** Start-up *)

Lemma missing_credentials_filter c :
  missing_credentials c
  = fst <$> filter (λ p, Is_true (py_not (p.2 c))) credential_table.
Proof.
  unfold missing_credentials, credential_table.
  destruct c as [k1 k2 k3 k4 k5]. simpl.
  destruct (py_not k1) eqn:H1, (py_not k2) eqn:H2, (py_not k3) eqn:H3,
    (py_not k4) eqn:H4, (py_not k5) eqn:H5;
    repeat (first [ rewrite filter_cons_True by (simpl; rewrite ?H1, ?H2, ?H3, ?H4, ?H5; simpl; tauto)
                  | rewrite filter_cons_False by (simpl; rewrite ?H1, ?H2, ?H3, ?H4, ?H5; simpl; tauto) ]);
    reflexivity.
Qed.

(** X15: [_validate_credentials] returns exactly when each of the five
    credentials is there and not empty; otherwise it raises a [ValueError]
    whose message lists, after a fixed prefix and separated by commas, the
    names of the credentials that are missing or empty, those and no others,
    in the order of the checks. *)
Theorem validate_credentials_reports_missing (c : credentials) :
  (_validate_credentials c = InitOk ()
   ↔ Forall (λ p, py_not (p.2 c) = false) credential_table)
  ∧ (∀ x, _validate_credentials c = InitRaise x →
       x = ValueError
             (String.append "Missing Twitter API credentials: "
                (join ", " (missing_credentials c)))
       ∧ missing_credentials c ≠ [])
  ∧ missing_credentials c
    = fst <$> filter (λ p, Is_true (py_not (p.2 c))) credential_table.
Proof.
  split; [|split; [|apply missing_credentials_filter]].
  - unfold _validate_credentials. rewrite missing_credentials_filter.
    unfold credential_table. destruct c as [k1 k2 k3 k4 k5]. simpl.
    rewrite !Forall_cons. simpl.
    destruct (py_not k1) eqn:H1, (py_not k2) eqn:H2, (py_not k3) eqn:H3,
      (py_not k4) eqn:H4, (py_not k5) eqn:H5;
      repeat (first [ rewrite filter_cons_True by (simpl; rewrite ?H1, ?H2, ?H3, ?H4, ?H5; simpl; tauto)
                  | rewrite filter_cons_False by (simpl; rewrite ?H1, ?H2, ?H3, ?H4, ?H5; simpl; tauto) ]);
      simpl; split; try done; intuition congruence.
  - intros x. unfold _validate_credentials.
    destruct (missing_credentials c) eqn:Hm; [done|]. by intros [= <-].
Qed.

Lemma validate_credentials_reports_missing_witness :
  ValueError "Missing Twitter API credentials: TWITTER_ACCESS_TOKEN, TWITTER_BEARER_TOKEN"
  = ValueError
      (String.append "Missing Twitter API credentials: "
         (join ", " (missing_credentials some_credentials)))
  ∧ missing_credentials some_credentials ≠ [].
Proof.
  apply (proj1 (proj2 (validate_credentials_reports_missing some_credentials))).
  reflexivity.
Defined.

Section InitFacts.
Context (P : platform) (dotenv environ : gmap string string).

Lemma init_cases file :
  __init__ P dotenv environ file
  = match int P (read_interval dotenv environ) with
    | InitRaise x => InitRaise x
    | InitOk interval =>
        match init_ai_client P (getenv (load_dotenv dotenv environ) "OPENAI_API_KEY") with
        | InitRaise x => InitRaise x
        | InitOk client =>
            match _validate_credentials (read_credentials dotenv environ) with
            | InitRaise x => InitRaise x
            | InitOk _ =>
                match _init_twitter_api P (read_credentials dotenv environ) with
                | InitRaise x => InitRaise x
                | InitOk _ =>
                    match _load_tweets file with
                    | Raise ex => InitRaise (InitExn ex)
                    | Ok corpus =>
                        InitOk {| creds := read_credentials dotenv environ;
                                  tweet_interval := interval;
                                  tweets_file := file;
                                  base := {| openai_api_key :=
                                               getenv (load_dotenv dotenv environ)
                                                 "OPENAI_API_KEY";
                                             ai_client := client;
                                             tweets := corpus |} |}
                    end
                end
            end
        end
    end.
Proof. reflexivity. Qed.

End InitFacts.

Lemma init_ai_client_cases P key client :
  init_ai_client P key = InitOk client →
  (∃ k, key = Some k ∧ Str.truthy k = true ∧ openai_init P k = InitOk ()
        ∧ client = Some (OpenAIClient k))
  ∨ (py_not key = true ∧ client = None).
Proof.
  unfold init_ai_client. destruct key as [k|]; [|intros [= <-]; by right].
  destruct (Str.truthy k) eqn:Hk; [|intros [= <-]; right; simpl; by rewrite Hk].
  destruct (openai_init P k) as [[]|x] eqn:Ho; [|done]. intros [= <-]. left.
  by exists k.
Qed.

(** X16: what [__init__] establishes: an agent that it returns has all five
    credentials, an interval read by [int] from the environment (from ["60"]
    when the variable is not set), the corpus of the tweets file, which was
    read to its end and in which every tweet is clean, and a generative client
    exactly when the key is there and not empty, so that the two tests of
    [generate_ai_tweet] agree; and the constructors of the clients have
    returned. *)
Theorem init_establishes (P : platform)
    (dotenv environ : gmap string string) (file : file_state) (a : agent) :
  __init__ P dotenv environ file = InitOk a →
  missing_credentials (creds a) = []
  ∧ int P (default "60" (load_dotenv dotenv environ !! "TWEET_INTERVAL_MINUTES"))
    = InitOk (tweet_interval a)
  ∧ (∃ text, file = Opens text ∧ _load_tweets file = Ok (tweets (base a)))
  ∧ Forall clean (tweets (base a))
  ∧ (is_Some (ai_client (base a)) ↔ _validate_ai_credentials (base a) = true)
  ∧ openai_api_key (base a) = load_dotenv dotenv environ !! "OPENAI_API_KEY"
  ∧ (∀ k, openai_api_key (base a) = Some k → Str.truthy k = true →
          openai_init P k = InitOk () ∧ ai_client (base a) = Some (OpenAIClient k))
  ∧ creds a = read_credentials dotenv environ
  ∧ tweepy_init P (creds a) = InitOk ().
Proof.
  rewrite init_cases. fold (read_interval dotenv environ).
  destruct (int P (read_interval dotenv environ)) as [interval|] eqn:Hint; [|done].
  destruct (init_ai_client P _) as [client|] eqn:Hclient; [|done].
  unfold _validate_credentials, _init_twitter_api.
  destruct (missing_credentials (read_credentials dotenv environ)) eqn:Hm; [|done].
  destruct (tweepy_init P _) as [[]|] eqn:Htw; [|done].
  destruct file as [ex|ex|text]; [done..|]. cbn [_load_tweets]. intros [= <-].
  cbn [creds tweet_interval base tweets ai_client openai_api_key].
  split; [done|]. split; [done|]. split; [eauto|].
  split; [apply (corpus_of_clean (file_lines text))|].
  unfold _validate_ai_credentials, getenv in *.
  cbn [openai_api_key].
  apply init_ai_client_cases in Hclient as [(k & Hk & Ht & Ho & ->)|[Hn ->]].
  - rewrite Hk, Ht. split; [by split; eauto|]. split; [done|].
    split; [|done]. by intros k' [= <-] _.
  - destruct (load_dotenv dotenv environ !! "OPENAI_API_KEY") as [k|]; simpl in Hn.
    + apply negb_true_iff in Hn. rewrite Hn.
      split; [split; [by intros [? ?]|done]|]. split; [done|].
      split; [|done]. intros k' [= <-] Hk'. congruence.
    + split; [split; [by intros [? ?]|done]|]. split; [done|]. by split.
Qed.

Lemma init_establishes_witness :
  ∃ a, __init__ P_digits ∅ full_environ (Opens (String.append "A" newline)) = InitOk a
    ∧ missing_credentials (creds a) = []
    ∧ tweet_interval a = 15%Z
    ∧ tweets (base a) = ["A"].
Proof.
  destruct (__init__ P_digits ∅ full_environ (Opens (String.append "A" newline)))
    as [a|x] eqn:Ha; [|by vm_compute in Ha].
  exists a. split; [reflexivity|].
  destruct (init_establishes P_digits ∅ full_environ _ a Ha) as (Hm & _).
  split; [exact Hm|]. vm_compute in Ha. injection Ha as <-. split; reflexivity.
Defined.

(** X17: the order of the failures of [__init__]: what [int] raises on the
    interval comes first; then what the constructor of the generative client
    raises, when the key is there and not empty; then the report of missing
    credentials; then what the constructors of the Twitter clients raise; and
    last what opening or reading the tweets file raises.  So missing
    credentials are reported also when the tweets file is missing, and the
    file is not looked at before the credentials are complete.  When none of
    these fails, [__init__] returns an agent with the interval, the client and
    the corpus of the file. *)
Theorem init_failure_order (P : platform)
    (dotenv environ : gmap string string) (file : file_state) :
  let interval := default "60" (load_dotenv dotenv environ !! "TWEET_INTERVAL_MINUTES") in
  let key := load_dotenv dotenv environ !! "OPENAI_API_KEY" in
  let c := read_credentials dotenv environ in
  (∀ x, int P interval = InitRaise x → __init__ P dotenv environ file = InitRaise x)
  ∧ (∀ n, int P interval = InitOk n →
     (∀ x, init_ai_client P key = InitRaise x →
           __init__ P dotenv environ file = InitRaise x)
     ∧ (∀ client, init_ai_client P key = InitOk client →
        (missing_credentials c ≠ [] →
         __init__ P dotenv environ file
         = InitRaise (ValueError
             (String.append "Missing Twitter API credentials: "
                (join ", " (missing_credentials c)))))
        ∧ (missing_credentials c = [] →
           (∀ x, tweepy_init P c = InitRaise x →
                 __init__ P dotenv environ file = InitRaise x)
           ∧ (tweepy_init P c = InitOk () →
              (∀ ex, file = OpenRaises ex ∨ file = ReadRaises ex →
                     __init__ P dotenv environ file = InitRaise (InitExn ex))
              ∧ (∀ text, file = Opens text →
                   ∃ a, __init__ P dotenv environ file = InitOk a
                        ∧ tweet_interval a = n
                        ∧ ai_client (base a) = client
                        ∧ tweets (base a) = corpus_of (file_lines text)))))).
Proof.
  cbv zeta. rewrite init_cases. unfold read_interval, getenv. split.
  { by intros x ->. }
  intros n ->. split; [by intros x ->|]. intros client ->.
  unfold _validate_credentials, _init_twitter_api. split.
  { intros Hm. by destruct (missing_credentials (read_credentials dotenv environ)). }
  intros ->. split; [by intros x ->|]. intros ->. split.
  - by intros ex [-> | ->].
  - intros text ->. eexists. split; [reflexivity|]. done.
Qed.

(** Without the bearer token, and without a tweets file: the credentials
    are reported. *)
Lemma init_failure_order_witness :
  __init__ P_digits ∅ partial_environ
    (OpenRaises (FileNotFoundError "[Errno 2] No such file or directory: 'tweets.txt'"))
  = InitRaise (ValueError "Missing Twitter API credentials: TWITTER_BEARER_TOKEN").
Proof.
  destruct (init_failure_order P_digits ∅ partial_environ
              (OpenRaises
                 (FileNotFoundError "[Errno 2] No such file or directory: 'tweets.txt'")))
    as [_ H].
  destruct (H 15%Z ltac:(by vm_compute)) as [_ H'].
  destruct (H' None ltac:(by vm_compute)) as [Hm _].
  rewrite Hm; [by vm_compute|]. by vm_compute.
Defined.

(** A generative client that cannot be built ends [__init__] before the
    credentials are checked. *)
Lemma client_failure_comes_first :
  __init__ P_no_openai ∅ (<["OPENAI_API_KEY" := "sk-test"]> partial_environ)
    (Opens (String.append "A" newline))
  = InitRaise (InitExn (OtherException "unexpected keyword argument")).
Proof. by vm_compute. Qed.

(** X18: [main] fixes the interval: whatever the environment and the
    [.env] file say about [TWEET_INTERVAL_MINUTES], the agent that [main]
    builds has the interval [int("180")], and [main] gives up at once, with
    what [int] raised, when [int] rejects that string. *)
Theorem main_overrides_interval (P : platform)
    (dotenv environ : gmap string string) (file : file_state) :
  (∀ a, __init__ P dotenv (<[interval_key := "180"]> environ) file = InitOk a →
        int P "180" = InitOk (tweet_interval a))
  ∧ (∀ x, int P "180" = InitRaise x →
          ∀ Es, main P dotenv environ file Es = AgentFailed x).
Proof.
  assert (default "60"
            (load_dotenv dotenv (<[interval_key := "180"]> environ)
               !! "TWEET_INTERVAL_MINUTES") = "180") as Hk.
  { unfold load_dotenv, interval_key.
    erewrite lookup_union_Some_l; [done|]. apply lookup_insert_eq. }
  unfold main. rewrite init_cases. unfold read_interval, getenv. rewrite Hk. split.
  - intros a. destruct (int P "180"); [|done].
    destruct (init_ai_client P _); [|done].
    destruct (_validate_credentials _); [|done].
    destruct (_init_twitter_api P _); [|done].
    destruct (_load_tweets file); [|done].
    by intros [= <-].
  - by intros x -> Es.
Qed.

Lemma main_overrides_interval_witness :
  ∃ a, __init__ P_digits ∅ (<[interval_key := "180"]> full_environ)
         (Opens "A") = InitOk a
       ∧ int P_digits "180" = InitOk (tweet_interval a).
Proof.
  destruct (__init__ P_digits ∅ (<[interval_key := "180"]> full_environ)
              (Opens "A")) as [a|x] eqn:Ha; [|by vm_compute in Ha].
  exists a. split; [reflexivity|].
  exact (proj1 (main_overrides_interval P_digits ∅ full_environ (Opens "A")) a Ha).
Defined.

(** ** [run] *)

Section RunFacts.
Context (self : TwitterAgent).

Lemma run_cycles_length use_ai Es rot :
  length (run_cycles use_ai self Es rot) ≤ length Es.
Proof.
  revert rot. induction Es as [|E Es IH]; intros rot; simpl; [done|].
  destruct (scheduled_post use_ai E self rot) as [res rot']. simpl.
  destruct (raised res.1); simpl; [lia|]. specialize (IH rot'). lia.
Qed.

(** A firing that raises is the last one; a run that is shorter than the
    list of firings ended with one. *)
Lemma run_cycles_stop use_ai Es rot :
  (∀ k res, run_cycles use_ai self Es rot !! k = Some res →
            raised res.1 = true → length (run_cycles use_ai self Es rot) = S k)
  ∧ (∀ k res, run_cycles use_ai self Es rot !! k = Some res →
              S k < length (run_cycles use_ai self Es rot) → raised res.1 = false)
  ∧ (length (run_cycles use_ai self Es rot) < length Es →
     ∃ res, last (run_cycles use_ai self Es rot) = Some res ∧ raised res.1 = true).
Proof.
  revert rot. induction Es as [|E Es IH]; intros rot; simpl.
  { split; [done|]. split; [done|]. lia. }
  destruct (scheduled_post use_ai E self rot) as [res0 rot']. simpl.
  destruct (raised res0.1) eqn:Hr0.
  - split; [|split].
    + intros [|k] res; simpl; [done|]. by rewrite ?lookup_nil.
    + intros [|k] res; simpl; [lia|]. by rewrite ?lookup_nil.
    + intros _. exists res0. done.
  - destruct (IH rot') as (IH1 & IH2 & IH3). split; [|split].
    + intros [|k] res; simpl.
      * intros [= <-]. congruence.
      * intros Hk Hr. by rewrite (IH1 k res Hk Hr).
    + intros [|k] res; simpl.
      * by intros [= <-].
      * intros Hk Hlt. apply (IH2 k res Hk). lia.
    + intros Hlt. destruct IH3 as (res & Hl & Hr); [lia|].
      exists res. split; [|done]. rewrite last_cons. by rewrite Hl.
Qed.

Lemma run_cycles_post_tweet Es rot k res :
  run_cycles false self Es rot !! k = Some res →
  ∃ E, Es !! k = Some E ∧ res = post_tweet E self.
Proof.
  revert k. induction Es as [|E Es IH]; intros k; simpl; [done|].
  destruct k as [|k]; simpl.
  - intros [= <-]. eauto.
  - destruct (raised (post_tweet E self).1); [by rewrite ?lookup_nil|]. apply IH.
Qed.

Lemma run_cycles_no_topic Es idx k res :
  run_cycles true self Es {| ai_topics := None; current_topic_index := idx |} !! k
  = Some res →
  ∃ E, Es !! k = Some E ∧ res = post_ai_tweet E self None.
Proof.
  revert k. induction Es as [|E Es IH]; intros k; simpl; [done|].
  destruct k as [|k]; simpl.
  - intros [= <-]. eauto.
  - destruct (raised (post_ai_tweet E self None).1); [by rewrite ?lookup_nil|].
    apply IH.
Qed.

Lemma run_cycles_rotation topics Es idx k res :
  idx < length topics →
  run_cycles true self Es {| ai_topics := Some topics; current_topic_index := idx |} !! k
  = Some res →
  ∃ E topic, Es !! k = Some E
    ∧ topics !! ((idx + k) `mod` length topics) = Some topic
    ∧ res = post_ai_tweet E self (Some topic).
Proof.
  revert idx k. induction Es as [|E Es IH]; intros idx k Hidx; [done|].
  destruct topics as [|t ts] eqn:Ht; [simpl in Hidx; lia|]. rewrite <- Ht in *.
  destruct (lookup_lt_is_Some_2 topics idx Hidx) as [topic Htopic].
  cbn [run_cycles scheduled_post ai_topics current_topic_index].
  rewrite Ht at 1. rewrite <- Ht. rewrite Htopic.
  destruct k as [|k]; cbn [lookup list_lookup].
  - intros [= <-]. exists E, topic. rewrite Nat.add_0_r, Nat.mod_small by done. done.
  - simpl. destruct (raised (post_ai_tweet E self (Some topic)).1);
      [by rewrite ?lookup_nil|].
    intros Hk. apply IH in Hk as (E' & topic' & HE & Htop & ->).
    + exists E', topic'. split; [done|]. split; [|done].
      rewrite Nat.Div0.add_mod_idemp_l in Htop.
      by replace (idx + S k) with (idx + 1 + k) by lia.
    + apply Nat.mod_upper_bound. lia.
Qed.

End RunFacts.

(** X19: the topics rotate: with [use_ai] and a list of topics that is not
    empty, the firing number [k] of a run (counted from 0, the post at
    start-up) is [post_ai_tweet] with the topic at position
    [k mod len(ai_topics)], so each topic is used in turn and the list starts
    over after its last topic. *)
Theorem run_rotates_topics (self : TwitterAgent) (topics : list string)
    (Es : list env) (k : nat) (result : outcome * trace) :
  topics ≠ [] →
  run true (Some topics) self Es !! k = Some result →
  ∃ E topic, Es !! k = Some E
    ∧ topics !! (k `mod` length topics) = Some topic
    ∧ result = post_ai_tweet E self (Some topic).
Proof.
  intros Hne Hk. unfold run, run_setup in Hk.
  destruct topics as [|t ts] eqn:Ht; [done|]. rewrite <- Ht in *.
  apply run_cycles_rotation in Hk; [done|]. rewrite Ht. simpl. lia.
Qed.

Lemma run_rotates_topics_witness :
  ∃ E topic, [E_auth; E_auth; E_auth] !! 2 = Some E
    ∧ ["DeFi solutions"; "NFT marketplace"] !! (2 `mod` 2) = Some topic
    ∧ (Failed [method1_name; method2_name], [(0, CreateTweet "A"); (0, UpdateStatus "A")])
      = post_ai_tweet E agent_A (Some topic).
Proof.
  apply (run_rotates_topics agent_A ["DeFi solutions"; "NFT marketplace"]
           [E_auth; E_auth; E_auth] 2); [done|reflexivity].
Defined.

(** X20: what a firing calls in the other modes: without [use_ai] every
    firing is [post_tweet], whatever topics are given; with [use_ai] and no
    topics, or an empty list of topics, every firing is [post_ai_tweet]
    without a topic. *)
Theorem run_modes (self : TwitterAgent) (Es : list env) (k : nat)
    (result : outcome * trace) :
  (∀ topics, run false topics self Es !! k = Some result →
             ∃ E, Es !! k = Some E ∧ result = post_tweet E self)
  ∧ (∀ topics, topics = None ∨ topics = Some [] →
               run true topics self Es !! k = Some result →
               ∃ E, Es !! k = Some E ∧ result = post_ai_tweet E self None).
Proof.
  split.
  - intros topics. unfold run. apply run_cycles_post_tweet.
  - intros topics [-> | ->]; unfold run, run_setup; apply run_cycles_no_topic.
Qed.

Lemma run_modes_witness :
  ∃ E, [E_no_data; E_no_data] !! 1 = Some E
       ∧ (Posted method2_name "1001" "A", [(0, CreateTweet "A"); (0, UpdateStatus "A")])
         = post_tweet E agent_A.
Proof.
  apply (proj1 (run_modes agent_A [E_no_data; E_no_data] 1 _) (Some ["x"])).
  reflexivity.
Defined.

(** X21: an exception ends [run]: a firing whose call raises is the last
    firing of the run, the firings before the last one did not raise, and a
    run has fewer firings than the scheduler would make only if its last
    firing raised. *)
Theorem run_stops_at_exception (use_ai : bool) (topics : option (list string))
    (self : TwitterAgent) (Es : list env) :
  length (run use_ai topics self Es) ≤ length Es
  ∧ (∀ k result, run use_ai topics self Es !! k = Some result →
       raised result.1 = true → length (run use_ai topics self Es) = S k)
  ∧ (∀ k result, run use_ai topics self Es !! k = Some result →
       S k < length (run use_ai topics self Es) → raised result.1 = false)
  ∧ (length (run use_ai topics self Es) < length Es →
     ∃ result, last (run use_ai topics self Es) = Some result
               ∧ raised result.1 = true).
Proof.
  unfold run. split; [apply run_cycles_length|apply run_cycles_stop].
Qed.

Lemma run_stops_at_exception_witness :
  length (run false None agent_A [E_auth; E_no_data; E_no_data]) = 1.
Proof.
  apply (proj1 (proj2 (run_stops_at_exception false None agent_A
                         [E_auth; E_no_data; E_no_data])) 0
           (Raised unbound_e, [(0, CreateTweet "A"); (0, UpdateStatus "A")]));
    reflexivity.
Defined.

(** X22: one failed post ends the agent: without [use_ai], a firing in
    which the two channels fail on the first tweet with something else than a
    rate limit is the last firing of [run], whatever firings would follow: the
    [UnboundLocalError] of [post_tweet] leaves [run]. *)
Theorem failed_post_ends_run (self : TwitterAgent) (topics : option (list string))
    (E : env) (Es : list env) (t : string) :
  random_choice (tweets self) (choice E 0) = Ok t →
  (∀ id, create_tweet E 0 t ≠ Ok (RespData id)) →
  (∀ s, create_tweet E 0 t ≠ Raise (TooManyRequests s)) →
  (∀ id, update_status E 0 t ≠ Ok (Status (Some id))) →
  (∀ s, update_status E 0 t ≠ Raise (TooManyRequests s)) →
  run false topics self (E :: Es)
  = [(Raised unbound_e, [(0, CreateTweet t); (0, UpdateStatus t)])].
Proof.
  intros H0 H1 H2 H3 H4. unfold run. cbn [run_cycles scheduled_post].
  by rewrite (all_channels_fail_raises E self t H0 H1 H2 H3 H4).
Qed.

Lemma failed_post_ends_run_witness :
  run false None agent_A (E_auth :: [E_no_data; E_no_data])
  = [(Raised unbound_e, [(0, CreateTweet "A"); (0, UpdateStatus "A")])].
Proof.
  by apply (failed_post_ends_run agent_A None E_auth [E_no_data; E_no_data] "A").
Defined.

(** X23: [main] as it is shipped: every firing is [post_ai_tweet] without
    a topic, so no firing sleeps or retries; and when the tweets file has a
    tweet, no firing raises and every firing that the scheduler makes takes
    place. *)
Theorem main_cycles (P : platform) (dotenv environ : gmap string string)
    (file : file_state) (Es : list env) (results : list (outcome * trace)) :
  main P dotenv environ file Es = Cycles results →
  ∃ a, __init__ P dotenv (<[interval_key := "180"]> environ) file = InitOk a
    ∧ (∀ k result, results !! k = Some result →
         ∃ E, Es !! k = Some E
              ∧ result = post_ai_tweet E (base a) None
              ∧ ∀ r d, (r, Sleep d) ∉ result.2)
    ∧ (tweets (base a) ≠ [] →
       length results = length Es
       ∧ ∀ k result, results !! k = Some result → raised result.1 = false).
Proof.
  unfold main.
  destruct (__init__ P dotenv (<[interval_key := "180"]> environ) file)
    as [a|x]; [|done].
  intros [= <-]. exists a. split; [done|].
  assert (∀ k result, run true None (base a) Es !! k = Some result →
            ∃ E, Es !! k = Some E ∧ result = post_ai_tweet E (base a) None) as Hcall.
  { intros k result Hk. unfold run, run_setup in Hk.
    by apply run_cycles_no_topic in Hk. }
  split.
  - intros k result Hk. destruct (Hcall k result Hk) as (E & HE & ->).
    exists E. split; [done|]. split; [done|]. apply post_ai_tweet_no_sleep.
  - intros Hne.
    assert (∀ k result, run true None (base a) Es !! k = Some result →
              raised result.1 = false) as Hnr.
    { intros k result Hk. destruct (Hcall k result Hk) as (E & _ & ->).
      destruct (generate_ai_tweet_total E (base a) None Hne) as [m Hm].
      unfold post_ai_tweet. rewrite Hm.
      destruct (create_tweet E 0 m) as [[| |]|];
        try destruct (update_status E 0 m) as [[[|]]|]; done. }
    split; [|done].
    destruct (run_cycles_stop (base a) true Es (run_setup true None)) as (_ & _ & H3).
    pose proof (run_cycles_length (base a) true Es (run_setup true None)) as Hle.
    fold (run true None (base a) Es) in H3, Hle.
    destruct (decide (length (run true None (base a) Es) < length Es)) as [Hlt|]; [|lia].
    destruct (H3 Hlt) as (result & Hl & Hr).
    apply last_Some_elem_of, list_elem_of_lookup in Hl as [k Hk].
    by rewrite (Hnr k result Hk) in Hr.
Qed.

Lemma main_cycles_witness :
  ∃ a, __init__ P_digits ∅ (<[interval_key := "180"]> full_environ) (Opens "A")
       = InitOk a
    ∧ (tweets (base a) ≠ [] →
       length [(Failed [method1_name; method2_name],
                [(0, CreateTweet "A"); (0, UpdateStatus "A")])] = length [E_auth]
       ∧ ∀ k result,
           [(Failed [method1_name; method2_name],
             [(0, CreateTweet "A"); (0, UpdateStatus "A")])] !! k = Some result →
           raised result.1 = false).
Proof.
  destruct (main_cycles P_digits ∅ full_environ (Opens "A") [E_auth]
              [(Failed [method1_name; method2_name],
                [(0, CreateTweet "A"); (0, UpdateStatus "A")])])
    as (a & Ha & _ & Hn); [by vm_compute|].
  exists a. split; [exact Ha|exact Hn].
Defined.
